(** * aws_opensearch_reserved_instance: the list and get hydrate functions

    A shallow embedding of [listOpenSearchReservedInstances] and
    [getOpenSearchReservedInstance] of
    [aws/table_aws_opensearch_reserved_instance.go], together with the
    paginator they drive, and the properties of the enumeration and of the
    keyed lookup.

    Conventions.
    - Go's [int32] and [int64] are [Z]; the narrowing conversion
      [int32(x)] is written out as [int32].
    - A Go [*string] is [option string]; [map[string]*proto.QualValue] is a
      [gmap string QualValue], a missing key reading as the nil pointer.
    - The remote service and the consumer of the rows are stateful; their
      state is passed explicitly.  Every call that leaves the hydrate
      function (client construction, remote call, [StreamListItem],
      [RowsRemaining]) is recorded as an [event], in program order.
    - The page loop of the list function is the only unbounded loop; it
      takes a fuel counting page fetches, and [None] as a result means the
      fuel ran out.  Logging calls are not modelled. *)

From stdpp Require Import gmap strings list.
From Stdlib Require Import ZArith Lia.

Open Scope Z_scope.

(** ** Machine integers *)

(** Go's [int32(x)] for an [int64] (or any integer) [x]: the low 32 bits,
    read as a signed number. *)
Definition int32 (x : Z) : Z := (x + 2 ^ 31) mod 2 ^ 32 - 2 ^ 31.

Definition in_int32 (x : Z) : Prop := - 2 ^ 31 <= x < 2 ^ 31.
Definition in_int64 (x : Z) : Prop := - 2 ^ 63 <= x < 2 ^ 63.

(** ** Data model *)

(** Go's [error]; the functions under study never inspect it. *)
Inductive error : Type :=
| Err (msg : string).

(** [proto.QualValue]: a protobuf oneof.  [GetStringValue] is nil-safe and
    yields the empty string for every alternative but the string one. *)
Inductive QualValue : Type :=
| QualValue_StringValue (s : string)
| QualValue_Int64Value (n : Z)
| QualValue_BoolValue (b : bool).

Definition GetStringValue (q : option QualValue) : string :=
  match q with
  | Some (QualValue_StringValue s) => s
  | _ => ""
  end.

(** [types.ReservedInstance]; the hydrate functions hand it on untouched. *)
Record ReservedInstance : Type := {
  ReservedInstanceId : option string;
  ReservationName : option string;
  InstanceCount : Z;
}.

Record DescribeReservedInstancesInput : Type := {
  MaxResults : Z;
  NextToken : option string;
  in_ReservedInstanceId : option string;
}.

Record DescribeReservedInstancesOutput : Type := {
  out_NextToken : option string;
  ReservedInstances : list ReservedInstance;
}.

Record QueryContext : Type := {
  Limit : option Z;
}.

(** [plugin.QueryData], as far as the two functions read it; [Q] is the
    state of the row consumer behind [StreamListItem] and
    [RowsRemaining]. *)
Record QueryData (Q : Type) : Type := {
  EqualsQuals : gmap string QualValue;
  d_QueryContext : QueryContext;
  d_status : Q;
}.
Arguments EqualsQuals {Q} _.
Arguments d_QueryContext {Q} _.
Arguments d_status {Q} _.

Definition response : Type := error + DescribeReservedInstancesOutput.

(** What the hydrate functions do to the outside, in program order. *)
Inductive event : Type :=
| EvClient (failed : option error)
| EvDescribe (input : DescribeReservedInstancesInput) (resp : response)
| EvStream (item : ReservedInstance)
| EvRowsRemaining (n : Z).

(** A hydrate function returns [(interface{}, error)]. *)
Definition hydrated : Type := option ReservedInstance * option error.

(** ** Page-size arbitration (lines 132-149) *)

Definition key_column : string := "reserved_instance_id".

Definition listInput {Q} (d : QueryData Q) : DescribeReservedInstancesInput :=
  let input := {| MaxResults := 100; NextToken := None;
                  in_ReservedInstanceId := None |} in
  let input :=
    match EqualsQuals d !! key_column with
    | Some q =>
        {| MaxResults := MaxResults input; NextToken := NextToken input;
           in_ReservedInstanceId := Some (GetStringValue (Some q)) |}
    | None => input
    end in
  match Limit (d_QueryContext d) with
  | Some l =>
      let limit := int32 l in
      if limit <? MaxResults input then
        if limit <? 20 then
          {| MaxResults := 20; NextToken := NextToken input;
             in_ReservedInstanceId := in_ReservedInstanceId input |}
        else
          {| MaxResults := limit; NextToken := NextToken input;
             in_ReservedInstanceId := in_ReservedInstanceId input |}
      else input
  | None => input
  end.

(** ** The paginator *)

Record DescribeReservedInstancesPaginatorOptions : Type := {
  o_Limit : Z;
  StopOnDuplicateToken : bool;
}.

Record DescribeReservedInstancesPaginator : Type := {
  options : DescribeReservedInstancesPaginatorOptions;
  params : DescribeReservedInstancesInput;
  nextToken : option string;
  firstPage : bool;
}.

(** Modelled from the spec: the paginator of the service SDK
    ([NewDescribeReservedInstancesPaginator], [HasMorePages], [NextPage]) is
    not part of the repository's file.  It is the "page-fetch sequencing"
    of the enumeration: it owns the continuation token, reports more pages
    before the first fetch and afterwards while the last response carried a
    non-empty token, sends the page size of its options with every request,
    and, when [StopOnDuplicateToken] is set, refuses to go on once a
    response repeats the token of its request. *)
Definition NewDescribeReservedInstancesPaginator
    (params : DescribeReservedInstancesInput)
    (optFn : DescribeReservedInstancesPaginatorOptions ->
             DescribeReservedInstancesPaginatorOptions)
  : DescribeReservedInstancesPaginator :=
  let options0 := {| o_Limit := if MaxResults params =? 0 then 0
                                else MaxResults params;
                     StopOnDuplicateToken := false |} in
  {| options := optFn options0; params := params;
     nextToken := NextToken params; firstPage := true |}.

Definition nonempty_token (t : option string) : bool :=
  match t with
  | Some s => negb (String.eqb s "")
  | None => false
  end.

Definition HasMorePages (p : DescribeReservedInstancesPaginator) : bool :=
  firstPage p || nonempty_token (nextToken p).

Definition same_token (prev next : option string) : bool :=
  match prev, next with
  | Some a, Some b => String.eqb a b
  | _, _ => false
  end.

Definition page_request (p : DescribeReservedInstancesPaginator)
  : DescribeReservedInstancesInput :=
  {| MaxResults := o_Limit (options p); NextToken := nextToken p;
     in_ReservedInstanceId := in_ReservedInstanceId (params p) |}.

Definition advance (p : DescribeReservedInstancesPaginator)
    (result : DescribeReservedInstancesOutput)
  : DescribeReservedInstancesPaginator :=
  let prevToken := nextToken p in
  let next := out_NextToken result in
  {| options := options p; params := params p;
     nextToken := if StopOnDuplicateToken (options p)
                     && same_token prevToken next
                  then None else next;
     firstPage := false |}.

Section Hydrate.

(** The remote service behind the client, with its state. *)
Variable Svc : Type.
Variable DescribeReservedInstances :
  Svc -> DescribeReservedInstancesInput -> response * Svc.

(** The row consumer of the plugin SDK. *)
Variable Q : Type.
Variable StreamListItem : ReservedInstance -> Q -> Q.
Variable RowsRemaining : Q -> Z.

(** Client construction for the connection of the query. *)
Variable OpenSearchClient : QueryData Q -> error + Svc.

Definition NextPage (p : DescribeReservedInstancesPaginator) (s : Svc)
  : list event * response * DescribeReservedInstancesPaginator * Svc :=
  if negb (HasMorePages p) then
    ([], inl (Err "no more pages available"), p, s)
  else
    let request := page_request p in
    let '(resp, s') := DescribeReservedInstances s request in
    match resp with
    | inl err => ([EvDescribe request resp], resp, p, s')
    | inr result => ([EvDescribe request resp], resp, advance p result, s')
    end.

(** The outcome of a hydrate call: what it did, what it returned ([None]
    when the fuel ran out) and the consumer it leaves behind. *)
Record run : Type := {
  trace : list event;
  result : option hydrated;
  status : Q;
}.

Definition after (evs : list event) (r : run) : run :=
  {| trace := evs ++ trace r; result := result r; status := status r |}.

(** Lines 164-171: the records of one page.  The boolean tells whether
    the function returned from inside the loop. *)
Fixpoint streamPage (items : list ReservedInstance) (q : Q)
  : list event * Q * bool :=
  match items with
  | [] => ([], q, false)
  | reservedInstance :: rest =>
      let q1 := StreamListItem reservedInstance q in
      let n := RowsRemaining q1 in
      if n =? 0 then
        ([EvStream reservedInstance; EvRowsRemaining n], q1, true)
      else
        let '(evs, q2, stop) := streamPage rest q1 in
        (EvStream reservedInstance :: EvRowsRemaining n :: evs, q2, stop)
  end.

(** Lines 157-174: the page loop. *)
Fixpoint listPages (fuel : nat) (p : DescribeReservedInstancesPaginator)
    (s : Svc) (q : Q) : run :=
  if HasMorePages p then
    match fuel with
    | O => {| trace := []; result := None; status := q |}
    | S fuel' =>
        let '(evs, resp, p', s') := NextPage p s in
        match resp with
        | inl err =>
            {| trace := evs; result := Some (None, Some err); status := q |}
        | inr output =>
            let '(evs', q', stop) := streamPage (ReservedInstances output) q in
            if stop then
              {| trace := evs ++ evs'; result := Some (None, None);
                 status := q' |}
            else after (evs ++ evs') (listPages fuel' p' s' q')
        end
    end
  else {| trace := []; result := Some (None, None); status := q |}.

(** The ways one turn of the page loop can go: no more pages, out of
    fuel, a failed fetch, a return from inside the record loop, or a page
    streamed to its end and the loop taken again. *)
Inductive page_turn (fuel : nat) (p : DescribeReservedInstancesPaginator)
    (s : Svc) (q : Q) : run -> Prop :=
| turn_done :
    HasMorePages p = false ->
    page_turn fuel p s q
      {| trace := []; result := Some (None, None); status := q |}
| turn_fuel :
    HasMorePages p = true -> fuel = O ->
    page_turn fuel p s q {| trace := []; result := None; status := q |}
| turn_fail fuel' err s' :
    HasMorePages p = true -> fuel = S fuel' ->
    DescribeReservedInstances s (page_request p) = (inl err, s') ->
    page_turn fuel p s q
      {| trace := [EvDescribe (page_request p) (inl err)];
         result := Some (None, Some err); status := q |}
| turn_stop fuel' out s' evs q' :
    HasMorePages p = true -> fuel = S fuel' ->
    DescribeReservedInstances s (page_request p) = (inr out, s') ->
    streamPage (ReservedInstances out) q = (evs, q', true) ->
    page_turn fuel p s q
      {| trace := [EvDescribe (page_request p) (inr out)] ++ evs;
         result := Some (None, None); status := q' |}
| turn_next fuel' out s' evs q' :
    HasMorePages p = true -> fuel = S fuel' ->
    DescribeReservedInstances s (page_request p) = (inr out, s') ->
    streamPage (ReservedInstances out) q = (evs, q', false) ->
    page_turn fuel p s q
      (after ([EvDescribe (page_request p) (inr out)] ++ evs)
             (listPages fuel' (advance p out) s' q')).

Definition listPaginator (d : QueryData Q)
  : DescribeReservedInstancesPaginator :=
  let input := listInput d in
  NewDescribeReservedInstancesPaginator input
    (fun o => {| o_Limit := MaxResults input;
                 StopOnDuplicateToken := true |}).

Definition listOpenSearchReservedInstances (fuel : nat) (d : QueryData Q)
  : run :=
  match OpenSearchClient d with
  | inl err =>
      {| trace := [EvClient (Some err)]; result := Some (None, Some err);
         status := d_status d |}
  | inr svc =>
      after [EvClient None] (listPages fuel (listPaginator d) svc (d_status d))
  end.

(** Lines 179-209: the keyed lookup. *)
Definition getInput (reservedInstanceId : string)
  : DescribeReservedInstancesInput :=
  {| MaxResults := 0; NextToken := None;
     in_ReservedInstanceId := Some reservedInstanceId |}.

Definition getOpenSearchReservedInstance (d : QueryData Q) : run :=
  let quals := EqualsQuals d in
  let reservedInstanceId := GetStringValue (quals !! key_column) in
  if String.eqb reservedInstanceId "" then
    {| trace := []; result := Some (None, None); status := d_status d |}
  else
    match OpenSearchClient d with
    | inl err =>
        {| trace := [EvClient (Some err)]; result := Some (None, Some err);
           status := d_status d |}
    | inr svc =>
        let params := getInput reservedInstanceId in
        let '(op, _) := DescribeReservedInstances svc params in
        match op with
        | inl err =>
            {| trace := [EvClient None; EvDescribe params op];
               result := Some (None, Some err); status := d_status d |}
        | inr out =>
            {| trace := [EvClient None; EvDescribe params op];
               result := Some (head (ReservedInstances out), None);
               status := d_status d |}
        end
    end.

End Hydrate.


Arguments trace {Q} _.
Arguments result {Q} _.
Arguments status {Q} _.
Arguments after {Q} _ _.

(** ** Reading a trace *)

(** The records handed to [StreamListItem], in order. *)
Definition streamed (tr : list event) : list ReservedInstance :=
  omap (fun e => match e with EvStream item => Some item | _ => None end) tr.

(** The records of the pages the remote service returned, in order. *)
Definition fetched (tr : list event) : list ReservedInstance :=
  mjoin (omap (fun e => match e with
                        | EvDescribe _ (inr out) => Some (ReservedInstances out)
                        | _ => None
                        end) tr).

(** The requests sent to the remote service, in order. *)
Definition requests (tr : list event) : list DescribeReservedInstancesInput :=
  omap (fun e => match e with EvDescribe input _ => Some input | _ => None end)
       tr.

Definition is_describe (e : event) : bool :=
  match e with EvDescribe _ _ => true | _ => false end.

Definition is_failure (e : event) : bool :=
  match e with EvDescribe _ (inl _) => true | _ => false end.

(** The page size of a request lies between the floor and the protocol
    maximum. *)
Definition page_size_ok (e : event) : Prop :=
  match e with
  | EvDescribe input _ => 20 <= MaxResults input <= 100
  | _ => True
  end.

Section Consumer.

Variable Q : Type.
Variable StreamListItem : ReservedInstance -> Q -> Q.
Variable RowsRemaining : Q -> Z.

(** The consumer after a sequence of [StreamListItem] calls. *)
Definition streamAll (items : list ReservedInstance) (q : Q) : Q :=
  fold_left (fun q item => StreamListItem item q) items q.

(** The consumer enforces a row ceiling [N]: once [N] rows (or more) have
    been streamed to it, it reports that no rows remain. *)
Definition honoursLimit (N : Z) (q : Q) : Prop :=
  forall items : list ReservedInstance,
    N <= Z.of_nat (length items) -> RowsRemaining (streamAll items q) = 0.

End Consumer.

(** ** Concrete collaborators, for examples *)

Module Examples.

Definition record (id : string) : ReservedInstance :=
  {| ReservedInstanceId := Some id; ReservationName := None;
     InstanceCount := 1 |}.

Definition A := record "A".
Definition B := record "B".
Definition C := record "C".

Definition page (token : option string) (items : list ReservedInstance)
  : response :=
  inr {| out_NextToken := token; ReservedInstances := items |}.

(** A remote service that plays a script: one response per call, and a
    failure once the script is over. *)
Definition scripted (s : list response) (_ : DescribeReservedInstancesInput)
  : response * list response :=
  match s with
  | [] => (inl (Err "end of script"), [])
  | r :: s' => (r, s')
  end.

(** A misbehaving remote service: every call returns the record [A] and
    the same continuation token. *)
Definition cyclic (s : unit) (_ : DescribeReservedInstancesInput)
  : response * unit :=
  (page (Some "tok") [A], s).

(** A remote service whose continuation tokens never repeat: the token of
    call [n] is a string of [n+1] characters. *)
Fixpoint token_of (n : nat) : string :=
  match n with
  | O => "x"
  | S n' => String.append "x" (token_of n')
  end.

Definition endless (n : nat) (_ : DescribeReservedInstancesInput)
  : response * nat :=
  (page (Some (token_of n)) [A], S n).

(** A row consumer that counts the rows it receives against an optional
    row ceiling and an optional moment of cancellation (a number of rows
    after which the context is found cancelled). *)
Record counter : Type := {
  rows : list ReservedInstance;
  rowsRequired : option Z;
  cancelledAt : option nat;
}.

Definition count_row (item : ReservedInstance) (q : counter) : counter :=
  {| rows := rows q ++ [item]; rowsRequired := rowsRequired q;
     cancelledAt := cancelledAt q |}.

Definition remaining (q : counter) : Z :=
  let n := length (rows q) in
  if match cancelledAt q with Some k => (k <=? n)%nat | None => false end
  then 0
  else match rowsRequired q with
       | Some N => Z.max 0 (N - Z.of_nat n)
       | None => 2 ^ 31 - 1
       end.

Definition fresh (limit : option Z) (cancel : option nat) : counter :=
  {| rows := []; rowsRequired := limit; cancelledAt := cancel |}.

Definition query (quals : gmap string QualValue) (limit : option Z)
    (cancel : option nat) : QueryData counter :=
  {| EqualsQuals := quals; d_QueryContext := {| Limit := limit |};
     d_status := fresh limit cancel |}.

(** The list function over a scripted service and a counting consumer. *)
Definition list_scripted (script : list response) (fuel : nat)
    (d : QueryData counter) : run counter :=
  listOpenSearchReservedInstances (list response) scripted counter
    count_row remaining (fun _ => inr script) fuel d.

Definition list_cyclic (fuel : nat) (d : QueryData counter) : run counter :=
  listOpenSearchReservedInstances unit cyclic counter
    count_row remaining (fun _ => inr tt) fuel d.

Definition list_endless (fuel : nat) (d : QueryData counter) : run counter :=
  listOpenSearchReservedInstances nat endless counter
    count_row remaining (fun _ => inr O) fuel d.

Definition get_scripted (client : error + list response)
    (d : QueryData counter) : run counter :=
  getOpenSearchReservedInstance (list response) scripted counter
    (fun _ => client) d.

Definition by_id (id : string) : gmap string QualValue :=
  {[ key_column := QualValue_StringValue id ]}.

(** The pages [[A,B]] then [[C]]. *)
Definition two_pages : list response :=
  [page (Some "t1") [A; B]; page None [C]].

(** A page, then a failing call. *)
Definition page_then_failure : list response :=
  [page (Some "t1") [A; B]; inl (Err "throttled")].

Definition sized_request (size : Z) (token : option string)
  : DescribeReservedInstancesInput :=
  {| MaxResults := size; NextToken := token; in_ReservedInstanceId := None |}.

Definition first_request (token : option string)
  : DescribeReservedInstancesInput :=
  sized_request 100 token.

Definition unbounded : Z := 2 ^ 31 - 1.

(** A remote service whose pages are all empty, each with a fresh
    continuation token. *)
Definition hollow (n : nat) (_ : DescribeReservedInstancesInput)
  : response * nat :=
  (page (Some (token_of n)) [], S n).

Definition list_hollow (fuel : nat) (d : QueryData counter) : run counter :=
  listOpenSearchReservedInstances nat hollow counter
    count_row remaining (fun _ => inr O) fuel d.

End Examples.


(** ** Failures and consumer events in a trace *)

(** The error of an event that is a failed call, if it is one. *)
Definition event_failed (e : event) : option error :=
  match e with
  | EvClient (Some err) => Some err
  | EvDescribe _ (inl err) => Some err
  | _ => None
  end.

Definition is_client (e : event) : bool :=
  match e with EvClient _ => true | _ => false end.

(** The events that reach the row consumer. *)
Definition is_consumer_event (e : event) : bool :=
  match e with EvStream _ | EvRowsRemaining _ => true | _ => false end.

Section StopPoint.

Variable Q : Type.
Variable StreamListItem : ReservedInstance -> Q -> Q.
Variable RowsRemaining : Q -> Z.

(** The consumer reports that no rows remain exactly from its [K]-th row
    on (a row ceiling, or a cancellation found after [K] rows). *)
Definition stopsExactlyAt (K : Z) (q : Q) : Prop :=
  forall items : list ReservedInstance,
    RowsRemaining (streamAll Q StreamListItem items q) = 0
    <-> K <= Z.of_nat (length items).

End StopPoint.
(** * Properties *)

(** ** Page-size arbitration *)

Lemma int32_id (x : Z) : in_int32 x -> int32 x = x.
Proof.
  unfold in_int32, int32. intros Hx.
  rewrite Z.mod_small by lia. lia.
Qed.

Lemma int32_range (x : Z) : in_int32 (int32 x).
Proof.
  unfold in_int32, int32.
  pose proof (Z.mod_pos_bound (x + 2 ^ 31) (2 ^ 32) ltac:(lia)). lia.
Qed.

(** The page size is one of: the protocol maximum, the floor, or the
    narrowed ceiling when that lies between the two. *)
Lemma listInput_MaxResults {Q} (d : QueryData Q) :
  MaxResults (listInput d) =
    match Limit (d_QueryContext d) with
    | None => 100
    | Some l => if int32 l <? 100 then if int32 l <? 20 then 20 else int32 l
                else 100
    end.
Proof.
  unfold listInput.
  destruct (EqualsQuals d !! key_column), (Limit (d_QueryContext d)); simpl;
    try reflexivity;
    destruct (int32 _ <? 100); try reflexivity;
    destruct (int32 _ <? 20); reflexivity.
Qed.

Lemma listInput_bounds {Q} (d : QueryData Q) :
  20 <= MaxResults (listInput d) <= 100.
Proof.
  rewrite listInput_MaxResults.
  destruct (Limit (d_QueryContext d)) as [l|]; [|lia].
  destruct (Z.ltb_spec (int32 l) 100); [|lia].
  destruct (Z.ltb_spec (int32 l) 20); lia.
Qed.

Lemma listInput_NextToken {Q} (d : QueryData Q) :
  NextToken (listInput d) = None.
Proof.
  unfold listInput.
  destruct (EqualsQuals d !! key_column), (Limit (d_QueryContext d)); simpl;
    try reflexivity;
    destruct (int32 _ <? 100); try reflexivity;
    destruct (int32 _ <? 20); reflexivity.
Qed.

(** The filter of the request is the key column's qualifier, when there is
    one; the row ceiling has no part in it. *)
Lemma listInput_filter {Q} (d : QueryData Q) :
  in_ReservedInstanceId (listInput d) =
    match EqualsQuals d !! key_column with
    | Some q => Some (GetStringValue (Some q))
    | None => None
    end.
Proof.
  unfold listInput.
  destruct (EqualsQuals d !! key_column), (Limit (d_QueryContext d)); simpl;
    try reflexivity;
    destruct (int32 _ <? 100); try reflexivity;
    destruct (int32 _ <? 20); reflexivity.
Qed.

Lemma page_size_absent {Q} (d : QueryData Q) :
  Limit (d_QueryContext d) = None -> MaxResults (listInput d) = 100.
Proof. intros H. rewrite listInput_MaxResults, H. reflexivity. Qed.

(** A ceiling between the floor and the protocol maximum is the page
    size. *)
Lemma page_size_middle {Q} (d : QueryData Q) (ceiling : Z) :
  Limit (d_QueryContext d) = Some ceiling -> 20 <= ceiling < 100 ->
  MaxResults (listInput d) = ceiling.
Proof.
  intros H Hc. rewrite listInput_MaxResults, H.
  rewrite int32_id by (unfold in_int32; lia).
  destruct (Z.ltb_spec ceiling 100); [|lia].
  destruct (Z.ltb_spec ceiling 20); lia.
Qed.

(** A ceiling of at least 100 that fits [int32] leaves the protocol
    maximum in place. *)
Lemma page_size_large_int32 {Q} (d : QueryData Q) (ceiling : Z) :
  Limit (d_QueryContext d) = Some ceiling -> 100 <= ceiling -> in_int32 ceiling ->
  MaxResults (listInput d) = 100.
Proof.
  intros H Hc Hr. rewrite listInput_MaxResults, H, int32_id by assumption.
  destruct (Z.ltb_spec ceiling 100); [lia | reflexivity].
Qed.

(** C1: for every present row ceiling with [0 < ceiling < 20], the page
    size computed by the arbitration of the enumeration, which is also the
    page size the paginator is configured with, is 20 and not the
    ceiling. *)
Theorem page_size_small_ceiling {Q} (d : QueryData Q) (ceiling : Z) :
  Limit (d_QueryContext d) = Some ceiling -> 0 < ceiling < 20 ->
  MaxResults (listInput d) = 20 /\
  o_Limit (options (listPaginator Q d)) = 20 /\
  MaxResults (listInput d) <> ceiling.
Proof.
  intros H Hc.
  assert (Hm : MaxResults (listInput d) = 20).
  { rewrite listInput_MaxResults, H.
    rewrite int32_id by (unfold in_int32; lia).
    destruct (Z.ltb_spec ceiling 100); [|lia].
    destruct (Z.ltb_spec ceiling 20); [reflexivity | lia]. }
  split; [exact Hm|]. split; [exact Hm | lia].
Qed.

Lemma page_size_small_ceiling_witness :
  MaxResults (listInput (Examples.query ∅ (Some 5) None)) = 20 /\
  o_Limit (options (listPaginator _ (Examples.query ∅ (Some 5) None))) = 20 /\
  MaxResults (listInput (Examples.query ∅ (Some 5) None)) <> 5.
Proof.
  apply (page_size_small_ceiling (Examples.query ∅ (Some 5) None) 5).
  - reflexivity.
  - lia.
Defined.

(** C3, at a ceiling above the [int32] range: the narrowing conversion of
    line 141 turns the row ceiling [2^31] into [-2^31], and the page size
    becomes the floor 20 instead of the protocol maximum 100. *)
Theorem page_size_ceiling_beyond_int32 :
  in_int64 2147483648 /\ 100 <= 2147483648 /\
  MaxResults (listInput (Examples.query ∅ (Some 2147483648) None)) = 20 /\
  requests (trace (Examples.list_scripted [Examples.page None []] 1
                     (Examples.query ∅ (Some 2147483648) None)))
    = [{| MaxResults := 20; NextToken := None;
          in_ReservedInstanceId := None |}].
Proof.
  unfold in_int64. repeat split; try lia; vm_compute; congruence.
Qed.

(** ** The page loop, one turn at a time *)

Section Enumeration.

Context {Svc Q : Type}.
Variable DescribeReservedInstances :
  Svc -> DescribeReservedInstancesInput -> response * Svc.
Variable StreamListItem : ReservedInstance -> Q -> Q.
Variable RowsRemaining : Q -> Z.
Variable OpenSearchClient : QueryData Q -> error + Svc.

Abbreviation streamPage := (streamPage Q StreamListItem RowsRemaining).
Abbreviation listPages :=
  (listPages Svc DescribeReservedInstances Q StreamListItem RowsRemaining).
Abbreviation page_turn :=
  (page_turn Svc DescribeReservedInstances Q StreamListItem RowsRemaining).
Abbreviation listFn :=
  (listOpenSearchReservedInstances Svc DescribeReservedInstances Q
     StreamListItem RowsRemaining OpenSearchClient).
Abbreviation getFn :=
  (getOpenSearchReservedInstance Svc DescribeReservedInstances Q
     OpenSearchClient).
Abbreviation streamAll := (streamAll Q StreamListItem).

Lemma listPages_turn fuel p s q : page_turn fuel p s q (listPages fuel p s q).
Proof.
  destruct (HasMorePages p) eqn:Hmore.
  - destruct fuel as [|fuel']; simpl; rewrite Hmore.
    + by apply turn_fuel.
    + unfold NextPage. rewrite Hmore. simpl.
      destruct (DescribeReservedInstances s (page_request p))
        as [[err|out] s'] eqn:Hcall.
      * by eapply turn_fail.
      * destruct (streamPage (ReservedInstances out) q)
          as [[evs q'] stop] eqn:Hpage.
        destruct stop.
        -- by eapply turn_stop.
        -- by eapply turn_next.
  - destruct fuel; simpl; rewrite Hmore; by apply turn_done.
Qed.

(** *** The records of one page *)

Lemma streamed_app (l1 l2 : list event) :
  streamed (l1 ++ l2) = streamed l1 ++ streamed l2.
Proof. apply omap_app. Qed.

Lemma fetched_app (l1 l2 : list event) :
  fetched (l1 ++ l2) = fetched l1 ++ fetched l2.
Proof. unfold fetched. rewrite omap_app. apply join_app. Qed.

Lemma requests_app (l1 l2 : list event) :
  requests (l1 ++ l2) = requests l1 ++ requests l2.
Proof. apply omap_app. Qed.

Lemma streamAll_app (l1 l2 : list ReservedInstance) (q : Q) :
  streamAll (l1 ++ l2) q = streamAll l2 (streamAll l1 q).
Proof. apply fold_left_app. Qed.

Ltac page_cases H IH :=
  simpl in H;
  match type of H with
  | context [RowsRemaining ?q1 =? 0] =>
      let Hz := fresh "Hz" in
      let Hrec := fresh "Hrec" in
      destruct (Z.eqb_spec (RowsRemaining q1) 0) as [Hz|Hz];
      [ injection H as <- <- <-
      | match type of H with
        | context [streamPage ?items ?q1'] =>
            destruct (streamPage items q1') as [[evs1 q2] stop1] eqn:Hrec;
            injection H as <- <- <-;
            try (specialize (IH _ _ _ _ Hrec))
        end ]
  end.

Lemma streamPage_status items q evs q' stop :
  streamPage items q = (evs, q', stop) -> q' = streamAll (streamed evs) q.
Proof.
  revert q evs q' stop.
  induction items as [|item items IH]; intros q evs q' stop H.
  - by injection H as <- <- <-.
  - page_cases H IH; [reflexivity | exact IH].
Qed.

(** The records streamed from a page are its first records, in order, and
    all of them unless the function returned from inside the loop. *)
Lemma streamPage_streamed items q evs q' stop :
  streamPage items q = (evs, q', stop) ->
  streamed evs `prefix_of` items /\ (stop = false -> streamed evs = items).
Proof.
  revert q evs q' stop.
  induction items as [|item items IH]; intros q evs q' stop H.
  - injection H as <- <- <-. by split.
  - page_cases H IH.
    + split; [|done]. by exists items.
    + destruct IH as [IH1 IH2]. split.
      * by apply prefix_cons.
      * intros ->. simpl. by rewrite IH2.
Qed.

Lemma streamPage_quiet items q evs q' stop :
  streamPage items q = (evs, q', stop) ->
  Forall (fun e => is_describe e = false) evs.
Proof.
  revert q evs q' stop.
  induction items as [|item items IH]; intros q evs q' stop H.
  - injection H as <- <- <-. constructor.
  - page_cases H IH; repeat constructor. exact IH.
Qed.

(** Returning from inside the loop happens on a zero poll, which is then
    the last event; a page streamed to its end has no zero poll. *)
Lemma streamPage_stop items q evs q' stop :
  streamPage items q = (evs, q', stop) ->
  if stop then exists front, evs = front ++ [EvRowsRemaining 0]
  else Forall (fun e => e <> EvRowsRemaining 0) evs.
Proof.
  revert q evs q' stop.
  induction items as [|item items IH]; intros q evs q' stop H.
  - injection H as <- <- <-. constructor.
  - page_cases H IH.
    + rewrite Hz. by exists [EvStream item].
    + destruct stop1.
      * destruct IH as [front ->].
        by exists (EvStream item :: EvRowsRemaining (RowsRemaining
                     (StreamListItem item q)) :: front).
      * repeat constructor; [done | congruence | exact IH].
Qed.

(** Every emission of a page is followed at once by a poll of the rows
    remaining, and a zero poll ends the page. *)
Lemma streamPage_checks items q evs q' stop :
  streamPage items q = (evs, q', stop) ->
  forall pre item post,
    evs = pre ++ EvStream item :: post ->
    exists post',
      post = EvRowsRemaining
               (RowsRemaining (streamAll (streamed pre ++ [item]) q)) :: post'
      /\ (RowsRemaining (streamAll (streamed pre ++ [item]) q) = 0 ->
          post' = [] /\ stop = true).
Proof.
  revert q evs q' stop.
  induction items as [|item0 items IH]; intros q evs q' stop H pre item post E.
  - injection H as <- <- <-. by destruct pre.
  - page_cases H IH.
    + destruct pre as [|e [|e' [|e'' pre]]]; simplify_eq/=.
      exists []. by rewrite Hz.
    + destruct pre as [|e [|e' pre]]; simplify_eq/=.
      * eexists. split; [reflexivity|]. intros Hz'. by rewrite Hz' in Hz.
      * destruct (IH pre item post eq_refl) as [post' [-> Hpost]].
        eexists. split; [reflexivity | exact Hpost].
Qed.

(** *** Traces of the page loop *)

Lemma cons_eq (x y : event) (l l' : list event) :
  x :: l = y :: l' -> x = y /\ l = l'.
Proof. intros H. by injection H. Qed.

(** Take the first event off both sides of an equation between traces. *)
Ltac peel pre E :=
  let Hhead := fresh "Hhead" in
  destruct pre as [|? pre]; simpl in E; apply cons_eq in E as [Hhead E];
  simplify_eq/=.

Lemma app_split (l1 l2 pre : list event) (e : event) (post : list event) :
  l1 ++ l2 = pre ++ e :: post ->
  (exists mid, l1 = pre ++ e :: mid /\ post = mid ++ l2) \/
  (exists pre', pre = l1 ++ pre' /\ l2 = pre' ++ e :: post).
Proof.
  revert pre. induction l1 as [|x l1 IH]; intros pre E.
  - right. by exists pre.
  - peel pre E.
    + left. by exists l1.
    + destruct (IH pre E) as [[mid [-> ->]]|[pre' [-> ->]]].
      * left. by exists mid.
      * right. by exists pre'.
Qed.

(** A split at a remote call never falls inside the events of a page. *)
Lemma split_past_page (evs rest pre : list event) (e : event)
    (post : list event) :
  Forall (fun x => is_describe x = false) evs -> is_describe e = true ->
  evs ++ rest = pre ++ e :: post ->
  exists pre', pre = evs ++ pre' /\ rest = pre' ++ e :: post.
Proof.
  intros Hq He E. destruct (app_split _ _ _ _ _ E) as [[mid [-> _]]|H]; [|exact H].
  apply Forall_app in Hq as [_ Hq]. inversion Hq; congruence.
Qed.

Ltac turn_on fuel p s q :=
  let T := fresh "T" in
  let r := fresh "r" in
  let Hr := fresh "Hr" in
  pose proof (listPages_turn fuel p s q) as T;
  remember (listPages fuel p s q) as r eqn:Hr in *; clear Hr;
  destruct T as [Hmore | Hmore Hfuel | fuel' cause s' Hmore Hfuel Hcall
                | fuel' out s' evs q' Hmore Hfuel Hcall Hpage
                | fuel' out s' evs q' Hmore Hfuel Hcall Hpage];
  simplify_eq/=.

Ltac turn :=
  match goal with
  | |- context [listPages ?fuel ?p ?s ?q] => turn_on fuel p s q
  | H : context [listPages ?fuel ?p ?s ?q] |- _ => turn_on fuel p s q
  end.

(** The consumer a run leaves behind has received the streamed records,
    and nothing else. *)
Lemma listPages_status fuel p s q :
  status (listPages fuel p s q)
  = streamAll (streamed (trace (listPages fuel p s q))) q.
Proof.
  revert p s q. induction fuel as [|fuel IH]; intros p s q; turn;
    try reflexivity.
  - by apply streamPage_status in Hpage.
  - rewrite IH. apply streamPage_status in Hpage as ->.
    by rewrite streamed_app, streamAll_app.
Qed.

Lemma listPages_checks fuel p s q pre item post :
  trace (listPages fuel p s q) = pre ++ EvStream item :: post ->
  exists post',
    post = EvRowsRemaining
             (RowsRemaining (streamAll (streamed pre ++ [item]) q)) :: post'
    /\ (RowsRemaining (streamAll (streamed pre ++ [item]) q) = 0 ->
        post' = [] /\ result (listPages fuel p s q) = Some (None, None)).
Proof.
  revert p s q pre. induction fuel as [|fuel IH]; intros p s q pre E;
    turn; try (by destruct pre as [|? [|? ?]]).
  - peel pre E.
    destruct (streamPage_checks _ _ _ _ _ Hpage _ _ _ eq_refl)
      as [post' [-> Hz]].
    exists post'. split; [done|]. intros Hzero.
    by destruct (Hz Hzero).
  - peel pre E.
    destruct (app_split _ _ _ _ _ E) as [[mid [-> ->]]|[pre' [-> Hrest]]].
    + destruct (streamPage_checks _ _ _ _ _ Hpage _ _ _ eq_refl)
        as [post' [-> Hz]].
      eexists. split; [reflexivity|]. intros Hzero.
      by destruct (Hz Hzero).
    + apply IH in Hrest as [post' [-> Hz]].
      apply streamPage_status in Hpage as ->.
      rewrite streamed_app, <- app_assoc, (streamAll_app (streamed evs)).
      by exists post'.
Qed.

Lemma streamPage_fetched items q evs q' stop :
  streamPage items q = (evs, q', stop) -> fetched evs = [] /\ requests evs = [].
Proof.
  intros H. apply streamPage_quiet in H.
  induction H as [|e evs He _ [IH1 IH2]]; [done|].
  destruct e; try discriminate; simpl.
  - unfold fetched in *. by simpl.
  - unfold fetched in *. by simpl.
  - unfold fetched in *. by simpl.
Qed.

Lemma fetched_page request out evs rest :
  Forall (fun x => is_describe x = false) evs ->
  fetched ([EvDescribe request (inr out)] ++ evs ++ rest)
  = ReservedInstances out ++ fetched rest.
Proof.
  intros Hq. rewrite !fetched_app.
  assert (fetched evs = []) as ->.
  { induction Hq as [|e evs He _ IH]; [done|].
    destruct e; try discriminate; exact IH. }
  unfold fetched at 1. simpl. by rewrite app_nil_r.
Qed.

(** Emission follows the order of the pages and of the records in them:
    what has been streamed is always an initial part of what has been
    fetched. *)
Lemma listPages_prefix fuel p s q :
  streamed (trace (listPages fuel p s q))
  `prefix_of` fetched (trace (listPages fuel p s q)).
Proof.
  revert p s q. induction fuel as [|fuel IH]; intros p s q; turn;
    try done.
  - pose proof (streamPage_quiet _ _ _ _ _ Hpage) as Hq.
    pose proof (fetched_page (page_request p) out evs [] Hq) as Hf.
    rewrite app_nil_r in Hf. simpl in Hf. rewrite Hf, app_nil_r.
    by apply streamPage_streamed in Hpage as [? _].
  - pose proof (streamPage_quiet _ _ _ _ _ Hpage) as Hq.
    pose proof (fetched_page (page_request p) out evs
                  (trace (listPages fuel' (advance p out) s' q')) Hq) as Hf.
    simpl in Hf. rewrite Hf, streamed_app.
    apply streamPage_streamed in Hpage as [_ ->]; [|done].
    apply prefix_app, IH.
Qed.

(** Unless a poll of the rows remaining returned zero, every fetched
    record has been streamed. *)
Lemma listPages_complete fuel p s q :
  Forall (fun e => e <> EvRowsRemaining 0) (trace (listPages fuel p s q)) ->
  streamed (trace (listPages fuel p s q))
  = fetched (trace (listPages fuel p s q)).
Proof.
  revert p s q. induction fuel as [|fuel IH]; intros p s q Hnz; turn;
    try done.
  - apply streamPage_stop in Hpage as [front ->].
    apply Forall_cons in Hnz as [_ Hnz].
    apply Forall_app in Hnz as [_ Hnz]. by inversion Hnz.
  - pose proof (streamPage_quiet _ _ _ _ _ Hpage) as Hq.
    pose proof (fetched_page (page_request p) out evs
                  (trace (listPages fuel' (advance p out) s' q')) Hq) as Hf.
    simpl in Hf. rewrite Hf, streamed_app.
    apply Forall_cons in Hnz as [_ Hnz].
    apply Forall_app in Hnz as [_ Hnz].
    apply streamPage_streamed in Hpage as [_ ->]; [|done].
    by rewrite IH.
Qed.

(** A page is requested only when the records of all earlier pages have
    been streamed. *)
Lemma listPages_unbuffered fuel p s q pre request resp post :
  trace (listPages fuel p s q) = pre ++ EvDescribe request resp :: post ->
  streamed pre = fetched pre.
Proof.
  revert p s q pre. induction fuel as [|fuel IH]; intros p s q pre E; turn;
    try (by destruct pre as [|? [|? ?]]).
  - peel pre E; [done|].
    pose proof (streamPage_quiet _ _ _ _ _ Hpage) as Hq.
    apply Forall_app in Hq as [_ Hq]. by inversion Hq.
  - peel pre E; [done|].
    pose proof (streamPage_quiet _ _ _ _ _ Hpage) as Hq.
    destruct (split_past_page _ _ _ (EvDescribe request resp) _ Hq eq_refl E)
      as [pre' [-> Hrest]].
    pose proof (fetched_page (page_request p) out evs pre' Hq) as Hf.
    simpl in Hf. rewrite Hf, streamed_app.
    apply streamPage_streamed in Hpage as [_ ->]; [|done].
    f_equal. by eapply IH.
Qed.

(** A failed page fetch is the last thing a run does; its error is the
    error returned, and the consumer keeps the rows streamed before it. *)
Lemma listPages_failure fuel p s q pre request err post :
  trace (listPages fuel p s q) = pre ++ EvDescribe request (inl err) :: post ->
  post = [] /\
  result (listPages fuel p s q) = Some (None, Some err) /\
  status (listPages fuel p s q) = streamAll (streamed pre) q.
Proof.
  revert p s q pre. induction fuel as [|fuel IH]; intros p s q pre E; turn;
    try (by destruct pre as [|? [|? ?]]).
  - destruct pre as [|e [|e' pre]]; by simplify_eq/=.
  - peel pre E.
    pose proof (streamPage_quiet _ _ _ _ _ Hpage) as Hq.
    apply Forall_app in Hq as [_ Hq]. by inversion Hq.
  - peel pre E.
    pose proof (streamPage_quiet _ _ _ _ _ Hpage) as Hq.
    destruct (split_past_page _ _ _ (EvDescribe request (inl err)) _ Hq
                eq_refl E) as [pre' [-> Hrest]].
    destruct (IH _ _ _ _ Hrest) as (-> & -> & ->).
    apply streamPage_status in Hpage as ->.
    by rewrite streamed_app, streamAll_app.
Qed.

(** Every request of a run carries the page size and the filter the
    paginator was created with. *)
Lemma listPages_requests fuel p s q :
  Forall (fun request =>
            MaxResults request = o_Limit (options p) /\
            in_ReservedInstanceId request = in_ReservedInstanceId (params p))
         (requests (trace (listPages fuel p s q))).
Proof.
  revert p s q. induction fuel as [|fuel IH]; intros p s q; turn;
    try by constructor.
  - apply streamPage_fetched in Hpage as [_ ->]. by repeat constructor.
  - rewrite requests_app.
    apply streamPage_fetched in Hpage as [_ ->]. simpl.
    constructor; [done|]. apply (IH (advance p out)).
Qed.

(** *** Duplicate tokens and termination *)

Lemma advance_options p out : options (advance p out) = options p.
Proof. reflexivity. Qed.

Lemma advance_params p out : params (advance p out) = params p.
Proof. reflexivity. Qed.

(** With [StopOnDuplicateToken] set, a response that repeats the token of
    its request leaves the paginator without more pages. *)
Lemma advance_duplicate p out :
  StopOnDuplicateToken (options p) = true ->
  out_NextToken out = nextToken p ->
  HasMorePages (advance p out) = false.
Proof.
  intros Hstop Htok. unfold HasMorePages, advance. simpl.
  rewrite Hstop, Htok. destruct (nextToken p) as [t|]; simpl; [|done].
  by rewrite String.eqb_refl.
Qed.

(** While the paginator has more pages, the token it sends is the token of
    the last response. *)
Lemma advance_more p out :
  HasMorePages (advance p out) = true ->
  nextToken (advance p out) = out_NextToken out.
Proof.
  unfold HasMorePages, advance. simpl.
  destruct (StopOnDuplicateToken (options p) &&
            same_token (nextToken p) (out_NextToken out)); [done|done].
Qed.

Lemma listPages_done fuel p s q :
  HasMorePages p = false ->
  listPages fuel p s q
  = {| trace := []; result := Some (None, None); status := q |}.
Proof. intros H. turn; congruence. Qed.

(** The first request of a run is the request of the paginator it starts
    from. *)
Lemma listPages_first fuel p s q mid request resp post :
  trace (listPages fuel p s q) = mid ++ EvDescribe request resp :: post ->
  requests mid = [] ->
  request = page_request p.
Proof.
  intros E Hmid. turn; try (by destruct mid as [|? [|? ?]]);
    destruct mid as [|e mid]; by simplify_eq/=.
Qed.

Lemma listPages_more fuel p s q :
  trace (listPages fuel p s q) <> [] -> HasMorePages p = true.
Proof.
  intros H. destruct (HasMorePages p) eqn:Hmore; [done|].
  by rewrite listPages_done in H.
Qed.

(** Sequencing: a request carries the token of the response before it. *)
Lemma listPages_chain fuel p s q pre r1 o1 mid r2 resp2 post :
  trace (listPages fuel p s q)
  = pre ++ EvDescribe r1 (inr o1) :: mid ++ EvDescribe r2 resp2 :: post ->
  requests mid = [] ->
  NextToken r2 = out_NextToken o1.
Proof.
  revert p s q pre. induction fuel as [|fuel IH]; intros p s q pre E Hmid;
    turn; try (by destruct pre as [|? [|? ?]]).
  - pose proof (streamPage_quiet _ _ _ _ _ Hpage) as Hq.
    peel pre E.
    + apply Forall_app in Hq as [_ Hq]. by inversion Hq.
    + apply Forall_app in Hq as [_ Hq]. by inversion Hq.
  - pose proof (streamPage_quiet _ _ _ _ _ Hpage) as Hq.
    peel pre E.
    + destruct (split_past_page _ _ _ (EvDescribe r2 resp2) _ Hq eq_refl E)
        as [mid' [-> Hrest]].
      rewrite requests_app in Hmid. apply app_eq_nil in Hmid as [_ Hmid].
      pose proof (listPages_first _ _ _ _ _ _ _ _ Hrest Hmid) as ->.
      simpl. apply advance_more.
      apply (listPages_more fuel' _ s' q'). rewrite Hrest. by destruct mid'.
    + destruct (split_past_page _ _ _ (EvDescribe r1 (inr o1)) _ Hq eq_refl E)
        as [pre' [-> Hrest]].
      by eapply IH.
Qed.

(** After a response that repeats the token of its request, no request is
    made and the run has come to its end. *)
Lemma listPages_duplicate fuel p s q pre request o post :
  StopOnDuplicateToken (options p) = true ->
  trace (listPages fuel p s q) = pre ++ EvDescribe request (inr o) :: post ->
  out_NextToken o = NextToken request ->
  requests post = [] /\ result (listPages fuel p s q) <> None.
Proof.
  revert p s q pre. induction fuel as [|fuel IH]; intros p s q pre Hstop E Hdup;
    turn; try (by destruct pre as [|? [|? ?]]).
  - pose proof (streamPage_quiet _ _ _ _ _ Hpage) as Hq.
    peel pre E.
    + by apply streamPage_fetched in Hpage as [_ ->].
    + apply Forall_app in Hq as [_ Hq]. by inversion Hq.
  - pose proof (streamPage_quiet _ _ _ _ _ Hpage) as Hq.
    peel pre E.
    + rewrite listPages_done by by apply advance_duplicate.
      simpl. rewrite app_nil_r.
      by apply streamPage_fetched in Hpage as [_ ->].
    + destruct (split_past_page _ _ _ (EvDescribe request (inr o)) _ Hq
                  eq_refl E) as [pre' [-> Hrest]].
      by eapply (IH (advance p out)).
Qed.

Lemma listPages_S fuel p s q :
  HasMorePages p = true ->
  listPages (S fuel) p s q =
    match DescribeReservedInstances s (page_request p) with
    | (inl err, _) =>
        {| trace := [EvDescribe (page_request p) (inl err)];
           result := Some (None, Some err); status := q |}
    | (inr out, s') =>
        let '(evs, q', stop) := streamPage (ReservedInstances out) q in
        if stop then
          {| trace := [EvDescribe (page_request p) (inr out)] ++ evs;
             result := Some (None, None); status := q' |}
        else after ([EvDescribe (page_request p) (inr out)] ++ evs)
                   (listPages fuel (advance p out) s' q')
    end.
Proof.
  intros Hmore. simpl. rewrite Hmore. unfold NextPage. rewrite Hmore. simpl.
  destruct (DescribeReservedInstances s (page_request p)) as [[err|out] s'];
    [reflexivity|].
  by destruct (streamPage (ReservedInstances out) q) as [[evs q'] []].
Qed.

(** A run that came to its end is the same run under any larger fuel. *)
Lemma listPages_fuel n m p s q :
  result (listPages n p s q) <> None -> (n <= m)%nat ->
  listPages m p s q = listPages n p s q.
Proof.
  revert m p s q.
  induction n as [|n IH]; intros m p s q Hres Hle;
    [turn_on O p s q | turn_on (S n) p s q];
    try (by rewrite listPages_done);
    destruct m as [|m]; try lia;
    rewrite listPages_S, Hcall by done; try done.
  - by rewrite Hpage.
  - rewrite Hpage. f_equal. apply IH; [done | lia].
Qed.

(** *** A consumer that enforces a row ceiling *)

Abbreviation honoursLimit := (honoursLimit Q StreamListItem RowsRemaining).

Lemma honoursLimit_step N item q :
  honoursLimit N q -> honoursLimit (N - 1) (StreamListItem item q).
Proof.
  intros H items Hlen. apply (H (item :: items)). simpl length. lia.
Qed.

Lemma honoursLimit_streamAll items N q :
  honoursLimit N q ->
  honoursLimit (N - Z.of_nat (length items)) (streamAll items q).
Proof.
  intros H more Hlen. unfold streamAll. rewrite <- fold_left_app.
  apply H. rewrite length_app. lia.
Qed.

Lemma streamPage_bound N items q evs q' stop :
  honoursLimit N q -> 1 <= N ->
  streamPage items q = (evs, q', stop) ->
  Z.of_nat (length (streamed evs)) <= N /\
  (stop = false -> Z.of_nat (length (streamed evs)) < N).
Proof.
  revert N q evs q' stop.
  induction items as [|item items IH]; intros N q evs q' stop HN Hpos H.
  - injection H as <- <- <-. simpl. lia.
  - simpl in H.
    destruct (Z.eqb_spec (RowsRemaining (StreamListItem item q)) 0) as [Hz|Hz].
    + injection H as <- <- <-. simpl. split; [lia | done].
    + destruct (streamPage items (StreamListItem item q))
        as [[evs1 q1] stop1] eqn:Hrec.
      injection H as <- <- <-.
      assert (2 <= N) as HN2.
      { destruct (Z.le_gt_cases 2 N) as [|Hlt]; [done|].
        exfalso. apply Hz. apply (HN [item]). simpl. lia. }
      destruct (IH (N - 1) _ _ _ _ (honoursLimit_step _ item _ HN)
                  ltac:(lia) Hrec) as [IH1 IH2].
      simpl. split; [lia|]. intros Hs. specialize (IH2 Hs). lia.
Qed.

Lemma listPages_bound N fuel p s q :
  honoursLimit N q -> 1 <= N ->
  Z.of_nat (length (streamed (trace (listPages fuel p s q)))) <= N.
Proof.
  revert N p s q. induction fuel as [|fuel IH]; intros N p s q HN Hpos; turn;
    try lia.
  - by apply (streamPage_bound N) in Hpage as [? _].
  - rewrite streamed_app, length_app.
    pose proof (streamPage_status _ _ _ _ _ Hpage) as ->.
    destruct (streamPage_bound N _ _ _ _ _ HN Hpos Hpage) as [_ Hlt].
    specialize (Hlt eq_refl).
    pose proof (IH _ (advance p out) s' _
                  (honoursLimit_streamAll (streamed evs) _ _ HN)
                  ltac:(lia)).
    lia.
Qed.

(** ** The enumeration *)

Lemma listPaginator_stops d :
  StopOnDuplicateToken (options (listPaginator Q d)) = true.
Proof. reflexivity. Qed.

Lemma listPaginator_limit d :
  o_Limit (options (listPaginator Q d)) = MaxResults (listInput d).
Proof. reflexivity. Qed.

(** The list function is the page loop behind a successful client
    construction. *)
Lemma listFn_cases fuel d :
  (exists err, OpenSearchClient d = inl err /\
     listFn fuel d = {| trace := [EvClient (Some err)];
                        result := Some (None, Some err);
                        status := d_status d |}) \/
  (exists svc, OpenSearchClient d = inr svc /\
     listFn fuel d = after [EvClient None]
                       (listPages fuel (listPaginator Q d) svc (d_status d))).
Proof.
  unfold listOpenSearchReservedInstances.
  destruct (OpenSearchClient d) as [err|svc]; [left | right]; eauto.
Qed.

Ltac list_cases fuel d :=
  let Hc := fresh "Hclient" in
  let E := fresh "Elist" in
  destruct (listFn_cases fuel d) as [[cause [Hc E]]|[svc [Hc E]]];
  rewrite E in *; clear E; simpl in *.

(** C2: in every enumeration, each record emission is followed at once by
    a poll of the cancellation signal ([RowsRemaining], asked of the
    consumer as it is after that emission); when the poll says stop (zero)
    nothing follows it - no further record of the page, no further page -
    and the function returns. *)
Theorem cancellation_polled_after_each_emission fuel d pre item post :
  trace (listFn fuel d) = pre ++ EvStream item :: post ->
  exists post',
    post = EvRowsRemaining
             (RowsRemaining
                (streamAll (streamed pre ++ [item]) (d_status d))) :: post'
    /\ (RowsRemaining (streamAll (streamed pre ++ [item]) (d_status d)) = 0 ->
        post' = [] /\ result (listFn fuel d) = Some (None, None)).
Proof.
  intros E. list_cases fuel d.
  - by destruct pre as [|? [|? ?]].
  - peel pre E.
    by apply listPages_checks.
Qed.

(** C5, amended: when the consumer enforces a present row ceiling [N] of
    at least one (it reports no rows remaining once [N] rows have been
    streamed to it), an enumeration emits at most [N] records over all its
    pages. *)
Theorem row_ceiling_bounds_emission fuel d N :
  Limit (d_QueryContext d) = Some N ->
  honoursLimit N (d_status d) ->
  1 <= N ->
  Z.of_nat (length (streamed (trace (listFn fuel d)))) <= N.
Proof.
  intros _ HN Hpos. list_cases fuel d; [lia|].
  by apply listPages_bound.
Qed.

(** C7: records are emitted in the order the remote service returns them,
    page by page and record by record: what has been streamed is an
    initial part of the fetched records in their order; nothing is left
    out unless a poll said stop; and a page is requested only when every
    record of the pages before it has been streamed. *)
Theorem emission_order fuel d :
  streamed (trace (listFn fuel d)) `prefix_of` fetched (trace (listFn fuel d))
  /\ (Forall (fun e => e <> EvRowsRemaining 0) (trace (listFn fuel d)) ->
      streamed (trace (listFn fuel d)) = fetched (trace (listFn fuel d)))
  /\ (forall pre request resp post,
        trace (listFn fuel d) = pre ++ EvDescribe request resp :: post ->
        streamed pre = fetched pre).
Proof.
  list_cases fuel d.
  - repeat split; try done. intros [|? [|? ?]] ? ? ? ?; by simplify_eq/=.
  - split; [apply listPages_prefix|]. split.
    + intros H. apply Forall_cons in H as [_ H]. by apply listPages_complete.
    + intros [|e pre] request resp post E; simplify_eq/=.
      change (streamed pre = fetched pre).
      by eapply listPages_unbuffered.
Qed.

(** A response that repeats the token of its request ends the run. *)
Lemma duplicate_response_ends_run fuel d pre request o post :
  trace (listFn fuel d) = pre ++ EvDescribe request (inr o) :: post ->
  out_NextToken o = NextToken request ->
  requests post = [] /\ result (listFn fuel d) <> None.
Proof.
  intros E Hdup. list_cases fuel d.
  - by destruct pre as [|? [|? ?]].
  - peel pre E.
    by eapply listPages_duplicate.
Qed.

Lemma listFn_fuel n m d :
  result (listFn n d) <> None -> (n <= m)%nat -> listFn m d = listFn n d.
Proof.
  unfold listOpenSearchReservedInstances.
  destruct (OpenSearchClient d) as [err|svc]; [done|]. simpl.
  intros Hres Hle. f_equal. by apply listPages_fuel.
Qed.

(** C8: when the remote service returns the same continuation token on
    two consecutive calls of an enumeration, no further page is requested
    and the enumeration has returned; more fuel does not change the run. *)
Theorem duplicate_token_terminates fuel d pre r1 o1 mid r2 o2 post :
  trace (listFn fuel d)
  = pre ++ EvDescribe r1 (inr o1) :: mid ++ EvDescribe r2 (inr o2) :: post ->
  requests mid = [] ->
  out_NextToken o2 = out_NextToken o1 ->
  requests post = [] /\
  result (listFn fuel d) <> None /\
  forall fuel', (fuel <= fuel')%nat -> listFn fuel' d = listFn fuel d.
Proof.
  intros E Hmid Hdup.
  assert (NextToken r2 = out_NextToken o1) as Hchain.
  { revert E. list_cases fuel d; intros E.
    - by destruct pre as [|? [|? ?]].
    - peel pre E.
      by eapply listPages_chain. }
  assert (trace (listFn fuel d)
          = (pre ++ EvDescribe r1 (inr o1) :: mid)
              ++ EvDescribe r2 (inr o2) :: post) as E'.
  { by rewrite E, <- app_assoc. }
  destruct (duplicate_response_ends_run _ _ _ _ _ _ E') as [Hpost Hres];
    [congruence|].
  split; [done|]. split; [done|].
  intros fuel' Hle. by apply listFn_fuel.
Qed.

(** C10: whatever the row ceiling of the query (absent, zero, negative,
    beyond [int32]), every page request of an enumeration asks for a page
    size between 20 and 100. *)
Theorem page_size_within_bounds fuel d :
  Forall (fun request => 20 <= MaxResults request <= 100)
         (requests (trace (listFn fuel d))).
Proof.
  list_cases fuel d; [constructor|].
  eapply Forall_impl; [apply listPages_requests|].
  intros request [-> _]. rewrite listPaginator_limit.
  apply listInput_bounds.
Qed.

(** Every page request carries the filter resolved at the start. *)
Lemma filter_fixed fuel d :
  Forall (fun request =>
            in_ReservedInstanceId request
            = in_ReservedInstanceId (listInput d))
         (requests (trace (listFn fuel d))).
Proof.
  list_cases fuel d; [constructor|].
  eapply Forall_impl; [apply listPages_requests|].
  by intros request [_ ->].
Qed.

(** ** The keyed lookup *)

(** C4: a lookup with an empty key returns no result and no error, and
    does nothing else: no client is constructed and no remote call is
    made. *)
Theorem lookup_empty_key d :
  GetStringValue (EqualsQuals d !! key_column) = "" ->
  getFn d = {| trace := []; result := Some (None, None);
               status := d_status d |}.
Proof.
  intros H. unfold getOpenSearchReservedInstance. by rewrite H.
Qed.

(** C6, amended: a lookup with a non-empty key whose client construction
    succeeds issues exactly one remote call, scoped to that key; when the
    call returns no record the lookup returns no result, and when it
    returns records the lookup returns the first of them. *)
Theorem lookup_nonempty_key d key svc :
  GetStringValue (EqualsQuals d !! key_column) = key ->
  key <> "" ->
  OpenSearchClient d = inr svc ->
  let request := {| MaxResults := 0; NextToken := None;
                    in_ReservedInstanceId := Some key |} in
  let resp := fst (DescribeReservedInstances svc request) in
  trace (getFn d) = [EvClient None; EvDescribe request resp] /\
  (forall out, resp = inr out -> ReservedInstances out = [] ->
     result (getFn d) = Some (None, None)) /\
  (forall out first others, resp = inr out ->
     ReservedInstances out = first :: others ->
     result (getFn d) = Some (Some first, None)).
Proof.
  intros Hkey Hne Hclient request resp. subst request resp.
  unfold getOpenSearchReservedInstance. rewrite Hkey.
  apply String.eqb_neq in Hne. rewrite Hne, Hclient.
  unfold getInput.
  destruct (DescribeReservedInstances svc _) as [[err|out] s']; simpl.
  - repeat split; intros; discriminate.
  - split; [done|]. split.
    + intros o Hresp Hitems. injection Hresp as <-. by rewrite Hitems.
    + intros o first others Hresp Hitems. injection Hresp as <-.
      by rewrite Hitems.
Qed.

(** C9: a failed remote call is the last thing the operation does and its
    error is the error returned, as it is: in an enumeration nothing
    follows the failed page fetch (no retry) and the consumer keeps the
    records streamed before it; in a lookup the one call is followed by
    nothing. *)
Theorem remote_failure_propagates :
  (forall fuel d pre request err post,
     trace (listFn fuel d) = pre ++ EvDescribe request (inl err) :: post ->
     post = [] /\
     result (listFn fuel d) = Some (None, Some err) /\
     status (listFn fuel d) = streamAll (streamed pre) (d_status d)) /\
  (forall d key svc err,
     GetStringValue (EqualsQuals d !! key_column) = key ->
     key <> "" ->
     OpenSearchClient d = inr svc ->
     fst (DescribeReservedInstances svc (getInput key)) = inl err ->
     getFn d = {| trace := [EvClient None;
                            EvDescribe (getInput key) (inl err)];
                  result := Some (None, Some err);
                  status := d_status d |}).
Proof.
  split.
  - intros fuel d pre request err post E. list_cases fuel d.
    + by destruct pre as [|? [|? ?]].
    + peel pre E.
      by eapply listPages_failure.
  - intros d key svc err Hkey Hne Hclient Hcall.
    unfold getOpenSearchReservedInstance. rewrite Hkey.
    apply String.eqb_neq in Hne. rewrite Hne, Hclient.
    destruct (DescribeReservedInstances svc _) as [resp s']; simpl in *.
    by subst resp.
Qed.

(** ** Further properties of the enumeration *)

Lemma streamPage_consumer items q evs q' stop :
  streamPage items q = (evs, q', stop) ->
  Forall (fun e => is_consumer_event e = true) evs.
Proof.
  revert q evs q' stop.
  induction items as [|item items IH]; intros q evs q' stop H.
  - injection H as <- <- <-. constructor.
  - page_cases H IH; repeat constructor. exact IH.
Qed.

(** Within a page, a poll of the rows remaining comes right after an
    emission. *)
Lemma streamPage_polls items q evs q' stop pre n post :
  streamPage items q = (evs, q', stop) ->
  evs = pre ++ EvRowsRemaining n :: post ->
  exists pre' item, pre = pre' ++ [EvStream item].
Proof.
  revert q evs q' stop pre.
  induction items as [|item0 items IH]; intros q evs q' stop pre H E.
  - injection H as <- <- <-. by destruct pre.
  - page_cases H IH.
    + destruct pre as [|e [|e' [|e'' pre]]]; simplify_eq/=.
      by exists [], item0.
    + destruct pre as [|e [|e' pre]]; simplify_eq/=.
      * by exists [], item0.
      * destruct (IH _ _ _ _ pre Hrec eq_refl) as (pre' & item & ->).
        by exists (EvStream item0
                   :: EvRowsRemaining (RowsRemaining (StreamListItem item0 q))
                   :: pre'), item.
Qed.

Lemma listPages_polls fuel p s q pre n post :
  trace (listPages fuel p s q) = pre ++ EvRowsRemaining n :: post ->
  exists pre' item, pre = pre' ++ [EvStream item].
Proof.
  revert p s q pre. induction fuel as [|fuel IH]; intros p s q pre E;
    turn; try (by destruct pre as [|? [|? ?]]).
  - peel pre E.
    destruct (streamPage_polls _ _ _ _ _ _ _ _ Hpage eq_refl)
      as (pre' & item & ->).
    by exists (EvDescribe (page_request p) (inr out) :: pre'), item.
  - peel pre E.
    destruct (app_split _ _ _ _ _ E) as [[mid [-> ->]]|[pre2 [-> Hrest]]].
    + destruct (streamPage_polls _ _ _ _ _ _ _ _ Hpage eq_refl)
        as (pre' & item & ->).
      by exists (EvDescribe (page_request p) (inr out) :: pre'), item.
    + apply IH in Hrest as (pre' & item & ->).
      exists (EvDescribe (page_request p) (inr out) :: evs ++ pre'), item.
      simpl. by rewrite app_assoc.
Qed.

Lemma listPages_no_client fuel p s q :
  Forall (fun e => is_client e = false) (trace (listPages fuel p s q)).
Proof.
  revert p s q. induction fuel as [|fuel IH]; intros p s q; turn;
    try by repeat constructor.
  - constructor; [done|].
    eapply Forall_impl; [by eapply streamPage_consumer|].
    by intros [].
  - constructor; [done|]. apply Forall_app. split; [|apply IH].
    eapply Forall_impl; [by eapply streamPage_consumer|].
    by intros [].
Qed.

(** A response without a continuation token (none, or an empty one) leaves
    the paginator without more pages. *)
Lemma advance_terminal p out :
  nonempty_token (out_NextToken out) = false ->
  HasMorePages (advance p out) = false.
Proof.
  intros Htok. unfold HasMorePages, advance. simpl.
  by destruct (StopOnDuplicateToken (options p) &&
               same_token (nextToken p) (out_NextToken out)).
Qed.

Lemma listPages_terminal fuel p s q pre request o post :
  trace (listPages fuel p s q) = pre ++ EvDescribe request (inr o) :: post ->
  nonempty_token (out_NextToken o) = false ->
  requests post = [] /\ result (listPages fuel p s q) <> None.
Proof.
  revert p s q pre. induction fuel as [|fuel IH]; intros p s q pre E Hend;
    turn; try (by destruct pre as [|? [|? ?]]).
  - pose proof (streamPage_quiet _ _ _ _ _ Hpage) as Hq.
    peel pre E.
    + by apply streamPage_fetched in Hpage as [_ ->].
    + apply Forall_app in Hq as [_ Hq]. by inversion Hq.
  - pose proof (streamPage_quiet _ _ _ _ _ Hpage) as Hq.
    peel pre E.
    + rewrite listPages_done by by apply advance_terminal.
      simpl. rewrite app_nil_r.
      by apply streamPage_fetched in Hpage as [_ ->].
    + destruct (split_past_page _ _ _ (EvDescribe request (inr o)) _ Hq
                  eq_refl E) as [pre' [-> Hrest]].
      by eapply (IH (advance p out)).
Qed.

(** The list function never returns an item. *)
Lemma listPages_value fuel p s q v e :
  result (listPages fuel p s q) = Some (v, e) -> v = None.
Proof.
  revert p s q. induction fuel as [|fuel IH]; intros p s q H; turn;
    try done. by eapply IH.
Qed.

(** An error is returned only from a failed page fetch, the last event. *)
Lemma listPages_error fuel p s q v err :
  result (listPages fuel p s q) = Some (v, Some err) ->
  exists pre request,
    trace (listPages fuel p s q) = pre ++ [EvDescribe request (inl err)].
Proof.
  revert p s q. induction fuel as [|fuel IH]; intros p s q H; turn.
  - by exists [], (page_request p).
  - apply IH in H as (pre & request & ->).
    exists (EvDescribe (page_request p) (inr out) :: evs ++ pre), request.
    simpl. by rewrite app_assoc.
Qed.

Lemma listPages_success fuel p s q v :
  result (listPages fuel p s q) = Some (v, None) ->
  Forall (fun e => event_failed e = None) (trace (listPages fuel p s q)).
Proof.
  revert p s q. induction fuel as [|fuel IH]; intros p s q H; turn;
    try by constructor.
  - constructor; [done|].
    eapply Forall_impl; [by eapply streamPage_consumer|].
    by intros [].
  - constructor; [done|]. apply Forall_app. split; [|by apply IH].
    eapply Forall_impl; [by eapply streamPage_consumer|].
    by intros [].
Qed.

(** A poll of the rows remaining is asked of the consumer as it is after
    the records streamed so far, of which there is at least one. *)
Lemma listPages_poll_value fuel p s q pre n post :
  trace (listPages fuel p s q) = pre ++ EvRowsRemaining n :: post ->
  streamed pre <> [] /\ n = RowsRemaining (streamAll (streamed pre) q).
Proof.
  intros E.
  destruct (listPages_polls _ _ _ _ _ _ _ E) as (pre' & item & ->).
  rewrite <- app_assoc in E. simpl in E.
  destruct (listPages_checks _ _ _ _ _ _ _ E) as (post' & Hpost & _).
  rewrite streamed_app. simpl. split; [by destruct (streamed pre')|].
  by injection Hpost as ->.
Qed.

Lemma streamed_nil (tr : list event) (item : ReservedInstance) :
  streamed tr = [] -> EvStream item ∉ tr.
Proof.
  intros H Hin. apply list_elem_of_split in Hin as (l1 & l2 & ->).
  rewrite streamed_app in H. simpl in H. by destruct (streamed l1).
Qed.

Lemma listPages_empty_pages fuel p s q :
  fetched (trace (listPages fuel p s q)) = [] ->
  Forall (fun e => is_consumer_event e = false)
         (trace (listPages fuel p s q)).
Proof.
  intros Hf.
  assert (streamed (trace (listPages fuel p s q)) = []) as Hs.
  { pose proof (listPages_prefix fuel p s q) as Hp. rewrite Hf in Hp.
    by apply prefix_nil_inv in Hp. }
  apply Forall_forall. intros e He. destruct e as [| |item|n]; try done.
  - by apply streamed_nil with (item := item) in Hs.
  - apply list_elem_of_split in He as (pre & post & E).
    destruct (listPages_poll_value _ _ _ _ _ _ _ E) as [Hne _].
    rewrite E, streamed_app in Hs. by destruct (streamed pre).
Qed.

Lemma listPages_exact K fuel p s q :
  stopsExactlyAt Q StreamListItem RowsRemaining K q -> 1 <= K ->
  Z.of_nat (length (streamed (trace (listPages fuel p s q))))
  = Z.min K (Z.of_nat (length (fetched (trace (listPages fuel p s q))))).
Proof.
  intros HK Hpos.
  assert (honoursLimit K q) as Hhon by (intros items Hlen; by apply HK).
  pose proof (listPages_bound K fuel p s q Hhon Hpos) as Hle.
  pose proof (prefix_length _ _ (listPages_prefix fuel p s q)) as Hpre.
  destruct (Z.eq_dec (Z.of_nat (length (streamed
                        (trace (listPages fuel p s q))))) K) as [Heq|Hne];
    [rewrite Z.min_l; lia|].
  assert (streamed (trace (listPages fuel p s q))
          = fetched (trace (listPages fuel p s q))) as Hall;
    [|rewrite <- Hall, Z.min_r; lia].
  apply listPages_complete.
  apply Forall_forall. intros e He ->.
  apply list_elem_of_split in He as (pre & post & E).
  destruct (listPages_poll_value _ _ _ _ _ _ _ E) as [_ Hn].
  symmetry in Hn. apply HK in Hn.
  rewrite E, streamed_app, length_app in *. lia.
Qed.

Lemma listPaginator_request d : page_request (listPaginator Q d) = listInput d.
Proof.
  unfold page_request, listPaginator, NewDescribeReservedInstancesPaginator.
  simpl. by destruct (listInput d).
Qed.

(** With fuel for one page and a client, the first thing the list function
    does after constructing the client is to send the arbitrated input. *)
Lemma listFn_first_request fuel d svc :
  OpenSearchClient d = inr svc ->
  exists rest,
    trace (listFn (S fuel) d)
    = EvClient None
      :: EvDescribe (listInput d)
           (fst (DescribeReservedInstances svc (listInput d))) :: rest.
Proof.
  intros Hclient. unfold listOpenSearchReservedInstances. rewrite Hclient.
  rewrite listPages_S by done. rewrite listPaginator_request.
  destruct (DescribeReservedInstances svc (listInput d)) as [[err|out] s'];
    simpl; [by eexists|].
  destruct (streamPage (ReservedInstances out) (d_status d))
    as [[evs q'] []]; simpl; by eexists.
Qed.

(** X2: the page request of an enumeration is fixed when it starts: every
    request carries the arbitrated page size and, as its filter, the
    string value of the key column's qualifier (no filter without a
    qualifier); only the continuation token changes from request to
    request. *)
Theorem page_request_immutable fuel d :
  Forall (fun request =>
            MaxResults request = MaxResults (listInput d) /\
            in_ReservedInstanceId request
            = (fun q => GetStringValue (Some q))
                <$> (EqualsQuals d !! key_column))
         (requests (trace (listFn fuel d))).
Proof.
  list_cases fuel d; [constructor|].
  eapply Forall_impl; [apply listPages_requests|].
  intros request [-> ->]. split; [done|].
  change (params (listPaginator Q d)) with (listInput d).
  rewrite listInput_filter. by destruct (EqualsQuals d !! key_column).
Qed.

(** X3: a qualifier on the key column whose string value is empty is
    treated differently by the two functions: the lookup returns no result
    without any call, while the enumeration sends the empty string as the
    filter of its requests (and does send a request, given a client and
    fuel for one page). *)
Theorem empty_qualifier_list_vs_get fuel d q svc :
  EqualsQuals d !! key_column = Some q ->
  GetStringValue (Some q) = "" ->
  OpenSearchClient d = inr svc ->
  getFn d = {| trace := []; result := Some (None, None);
               status := d_status d |} /\
  exists request others,
    requests (trace (listFn (S fuel) d)) = request :: others /\
    Forall (fun r => in_ReservedInstanceId r = Some "") (request :: others).
Proof.
  intros Hq Hempty Hclient. split.
  - unfold getOpenSearchReservedInstance. by rewrite Hq, Hempty.
  - destruct (listFn_first_request fuel d svc Hclient) as [rest Htrace].
    exists (listInput d), (requests rest). split; [by rewrite Htrace|].
    assert (requests (trace (listFn (S fuel) d))
            = listInput d :: requests rest) as <- by by rewrite Htrace.
    eapply Forall_impl; [apply filter_fixed|].
    intros request ->. by rewrite listInput_filter, Hq, Hempty.
Qed.

(** X4: continuation.  The first request of an enumeration is the
    arbitrated input, without a token; every later request carries the
    token of the response just before it, and that token is not empty. *)
Theorem continuation_chain fuel d :
  (forall pre request resp post,
     trace (listFn fuel d) = pre ++ EvDescribe request resp :: post ->
     requests pre = [] ->
     request = listInput d /\ NextToken request = None) /\
  (forall pre r1 o1 mid r2 resp2 post,
     trace (listFn fuel d)
     = pre ++ EvDescribe r1 (inr o1) :: mid ++ EvDescribe r2 resp2 :: post ->
     requests mid = [] ->
     NextToken r2 = out_NextToken o1 /\
     nonempty_token (out_NextToken o1) = true).
Proof.
  split.
  - intros pre request resp post E Hpre. list_cases fuel d.
    + by destruct pre as [|? [|? ?]].
    + peel pre E.
      apply listPages_first in E as ->; [|done].
      rewrite listPaginator_request. split; [done|].
      apply listInput_NextToken.
  - intros pre r1 o1 mid r2 resp2 post E Hmid. list_cases fuel d.
    + by destruct pre as [|? [|? ?]].
    + peel pre E. split; [by eapply listPages_chain|].
      destruct (nonempty_token (out_NextToken o1)) eqn:Htok; [done|].
      destruct (listPages_terminal _ _ _ _ _ _ _ _ E Htok) as [Hpost _].
      rewrite requests_app in Hpost. by destruct (requests mid).
Qed.

(** X5: a response that carries no continuation token, or an empty one,
    is the last: no further request is made, the enumeration has returned,
    and more fuel does not change the run. *)
Theorem terminal_token_ends_run fuel d pre request o post :
  trace (listFn fuel d) = pre ++ EvDescribe request (inr o) :: post ->
  nonempty_token (out_NextToken o) = false ->
  requests post = [] /\
  result (listFn fuel d) <> None /\
  forall fuel', (fuel <= fuel')%nat -> listFn fuel' d = listFn fuel d.
Proof.
  intros E Hend.
  assert (requests post = [] /\ result (listFn fuel d) <> None) as [Hpost Hres].
  { revert E. list_cases fuel d; intros E.
    - by destruct pre as [|? [|? ?]].
    - peel pre E. by eapply listPages_terminal. }
  split; [done|]. split; [done|].
  intros fuel' Hle. by apply listFn_fuel.
Qed.

(** X6: the rows remaining are polled only right after an emission, never
    before the first record and never twice in a row; the poll is asked of
    the consumer as it is after the records streamed so far. *)
Theorem poll_only_after_emission fuel d pre n post :
  trace (listFn fuel d) = pre ++ EvRowsRemaining n :: post ->
  (exists pre' item, pre = pre' ++ [EvStream item]) /\
  n = RowsRemaining (streamAll (streamed pre) (d_status d)).
Proof.
  intros E. list_cases fuel d.
  - by destruct pre as [|? [|? ?]].
  - peel pre E. split.
    + destruct (listPages_polls _ _ _ _ _ _ _ E) as (pre' & item & ->).
      by exists (EvClient None :: pre'), item.
    + by destruct (listPages_poll_value _ _ _ _ _ _ _ E).
Qed.

(** X7: what the list function returns.  Its first result is always nil;
    when it returns an error, that error is the error of the last event, a
    failed client construction or a failed page fetch; when it returns no
    error, no call of the run has failed. *)
Theorem list_result_classification fuel d v e :
  result (listFn fuel d) = Some (v, e) ->
  v = None /\
  match e with
  | Some err =>
      exists pre last,
        trace (listFn fuel d) = pre ++ [last] /\ event_failed last = Some err
  | None => Forall (fun ev => event_failed ev = None) (trace (listFn fuel d))
  end.
Proof.
  intros H. list_cases fuel d.
  - simplify_eq/=. split; [done|]. by exists [], (EvClient (Some cause)).
  - split; [by eapply listPages_value|]. destruct e as [err|].
    + apply listPages_error in H as (pre & request & ->).
      by exists (EvClient None :: pre), (EvDescribe request (inl err)).
    + constructor; [done|]. by eapply listPages_success.
Qed.

(** X8: the client is constructed once, before anything else; when its
    construction fails nothing else happens - no request, no emission -
    and the error is returned. *)
Theorem client_first_and_once fuel d :
  exists rest,
    trace (listFn fuel d)
    = EvClient (match OpenSearchClient d with
                | inl err => Some err
                | inr _ => None
                end) :: rest /\
    Forall (fun ev => is_client ev = false) rest /\
    (forall err, OpenSearchClient d = inl err ->
       rest = [] /\ result (listFn fuel d) = Some (None, Some err)).
Proof.
  list_cases fuel d; rewrite Hclient.
  - exists []. split; [done|]. split; [constructor|].
    intros err ?. by simplify_eq.
  - eexists. split; [done|]. split; [apply listPages_no_client|]. done.
Qed.

(** X11: with a consumer that reports no rows remaining exactly from its
    [K]-th row on ([K] at least one), an enumeration emits the first [K]
    of the fetched records, or all of them when fewer have been fetched. *)
Theorem emission_count_exact fuel d K :
  stopsExactlyAt Q StreamListItem RowsRemaining K (d_status d) ->
  1 <= K ->
  Z.of_nat (length (streamed (trace (listFn fuel d))))
  = Z.min K (Z.of_nat (length (fetched (trace (listFn fuel d))))).
Proof.
  intros HK Hpos. list_cases fuel d.
  - unfold fetched. simpl. lia.
  - change (fetched (EvClient None :: ?l)) with (fetched l).
    by apply listPages_exact.
Qed.

(** X12: as long as the pages fetched are empty, the consumer is neither
    given a record nor asked how many rows remain, and is left as it was:
    a stop it would signal is not seen. *)
Theorem empty_pages_never_poll fuel d :
  fetched (trace (listFn fuel d)) = [] ->
  Forall (fun ev => is_consumer_event ev = false) (trace (listFn fuel d)) /\
  status (listFn fuel d) = d_status d.
Proof.
  intros Hf. list_cases fuel d.
  - by repeat constructor.
  - change (fetched (EvClient None :: ?l)) with (fetched l) in Hf.
    split.
    + constructor; [done|]. by apply listPages_empty_pages.
    + rewrite listPages_status.
      pose proof (listPages_prefix fuel (listPaginator Q d) svc (d_status d))
        as Hp.
      rewrite Hf in Hp. apply prefix_nil_inv in Hp. by rewrite Hp.
Qed.

(** ** Further properties of the keyed lookup *)

(** X9: the lookup leaves the row consumer alone, always returns, and
    makes at most one remote call, which then carries the non-empty key as
    its filter, no page size and no token. *)
Theorem lookup_side_effects d :
  Forall (fun ev => is_consumer_event ev = false) (trace (getFn d)) /\
  status (getFn d) = d_status d /\
  result (getFn d) <> None /\
  (requests (trace (getFn d)) = [] \/
   GetStringValue (EqualsQuals d !! key_column) <> "" /\
   requests (trace (getFn d))
   = [{| MaxResults := 0; NextToken := None;
         in_ReservedInstanceId
         := Some (GetStringValue (EqualsQuals d !! key_column)) |}]).
Proof.
  unfold getOpenSearchReservedInstance.
  destruct (String.eqb_spec (GetStringValue (EqualsQuals d !! key_column)) "")
    as [Hkey|Hkey].
  - repeat split; try done. by left.
  - destruct (OpenSearchClient d) as [err|svc].
    + repeat split; try done; [by repeat constructor | by left].
    + destruct (DescribeReservedInstances svc _) as [[err|out] s'];
        (repeat split; try done; [by repeat constructor | by right]).
Qed.

(** X10: where the outcome of a lookup comes from.  A record returned is
    the first record of the response to the one call made, and comes
    without an error; an error returned is the error of the failed client
    construction or of the failed call, and comes without a record. *)
Theorem lookup_outcome_provenance d :
  (forall r e,
     result (getFn d) = Some (Some r, e) ->
     e = None /\
     exists out,
       trace (getFn d)
       = [EvClient None;
          EvDescribe (getInput (GetStringValue (EqualsQuals d !! key_column)))
                     (inr out)] /\
       head (ReservedInstances out) = Some r) /\
  (forall v err,
     result (getFn d) = Some (v, Some err) ->
     v = None /\
     (trace (getFn d) = [EvClient (Some err)] \/
      trace (getFn d)
      = [EvClient None;
         EvDescribe (getInput (GetStringValue (EqualsQuals d !! key_column)))
                    (inl err)])).
Proof.
  unfold getOpenSearchReservedInstance.
  destruct (String.eqb (GetStringValue (EqualsQuals d !! key_column)) "");
    [by split|].
  destruct (OpenSearchClient d) as [err|svc].
  - split; [done|]. intros v err' H. simplify_eq/=. split; [done | by left].
  - destruct (DescribeReservedInstances svc _) as [[err|out] s']; simpl.
    + split; [done|]. intros v err' H. simplify_eq/=.
      split; [done | by right].
    + split; [|done]. intros r e H. simplify_eq/=. split; [done|].
      by exists out.
Qed.

End Enumeration.

(** ** The counting consumer *)

Lemma counter_rows (items : list ReservedInstance) (q : Examples.counter) :
  Examples.rows (streamAll Examples.counter Examples.count_row items q)
  = Examples.rows q ++ items.
Proof.
  revert q. induction items as [|item items IH]; intros q; simpl.
  - by rewrite app_nil_r.
  - rewrite IH. simpl. by rewrite <- app_assoc.
Qed.

Lemma counter_required (items : list ReservedInstance) (q : Examples.counter) :
  Examples.rowsRequired
    (streamAll Examples.counter Examples.count_row items q)
  = Examples.rowsRequired q.
Proof.
  revert q. induction items as [|item items IH]; intros q; simpl; [done|].
  by rewrite IH.
Qed.

(** The counting consumer enforces the row ceiling it was created with. *)
Lemma counter_honours (N : Z) (cancel : option nat) :
  honoursLimit Examples.counter Examples.count_row Examples.remaining N
    (Examples.fresh (Some N) cancel).
Proof.
  intros items Hlen. unfold Examples.remaining.
  rewrite counter_rows, counter_required. simpl.
  destruct (match Examples.cancelledAt _ with
            | Some k => (k <=? length items)%nat
            | None => false
            end); [done|]. lia.
Qed.

(** ** Concrete runs *)

Import Examples.

(** The pages [[A,B]] then [[C]], no ceiling: [A], [B], [C] in this order,
    each page requested with the protocol maximum. *)
Example run_two_pages :
  list_scripted two_pages 5 (query ∅ None None)
  = {| trace := [EvClient None;
                 EvDescribe (first_request None) (page (Some "t1") [A; B]);
                 EvStream A; EvRowsRemaining unbounded;
                 EvStream B; EvRowsRemaining unbounded;
                 EvDescribe (first_request (Some "t1")) (page None [C]);
                 EvStream C; EvRowsRemaining unbounded];
       result := Some (None, None);
       status := {| rows := [A; B; C]; rowsRequired := None;
                    cancelledAt := None |} |}.
Proof. reflexivity. Qed.

(** The consumer says stop after [B]: [C] is never emitted and the second
    page is never requested. *)
Example run_stop_after_B :
  trace (list_scripted two_pages 5 (query ∅ None (Some 2%nat)))
  = [EvClient None;
     EvDescribe (first_request None) (page (Some "t1") [A; B]);
     EvStream A; EvRowsRemaining unbounded;
     EvStream B; EvRowsRemaining 0].
Proof. reflexivity. Qed.

(** A filter and no ceiling: one call with the filter and page size 100;
    no records, no emission, success. *)
Example run_filter_no_record :
  list_scripted [page None []] 5 (query (by_id "ri-123") None None)
  = {| trace := [EvClient None;
                 EvDescribe {| MaxResults := 100; NextToken := None;
                               in_ReservedInstanceId := Some "ri-123" |}
                            (page None [])];
       result := Some (None, None);
       status := fresh None None |}.
Proof. reflexivity. Qed.

(** No filter and ceiling 5: page size 20; one page of five records with
    no continuation token is emitted whole, and no second call is made. *)
Example run_ceiling_five :
  let r := list_scripted [page None [A; B; C; A; B]] 5
             (query ∅ (Some 5) None) in
  requests (trace r)
  = [{| MaxResults := 20; NextToken := None;
        in_ReservedInstanceId := None |}] /\
  streamed (trace r) = [A; B; C; A; B] /\
  result r = Some (None, None).
Proof. by vm_compute. Qed.

(** A remote service whose tokens never repeat keeps the loop going: the
    fuel runs out however much there is of it (here, 40 pages). *)
Example run_endless :
  result (list_endless 40 (query ∅ None None)) = None /\
  length (requests (trace (list_endless 40 (query ∅ None None)))) = 40%nat.
Proof. by vm_compute. Qed.

(** A failing client construction: nothing is fetched. *)
Example run_no_client :
  listOpenSearchReservedInstances (list response) scripted counter
    count_row remaining (fun _ => inl (Err "no credentials")) 5
    (query ∅ None None)
  = {| trace := [EvClient (Some (Err "no credentials"))];
       result := Some (None, Some (Err "no credentials"));
       status := fresh None None |}.
Proof. reflexivity. Qed.

(** ** The properties at concrete runs *)

Lemma cancellation_polled_after_each_emission_witness :
  exists post',
    [EvRowsRemaining 0]
    = EvRowsRemaining
        (remaining (streamAll counter count_row
                      (streamed [EvClient None;
                                 EvDescribe (sized_request 20 None)
                                            (page (Some "t1") [A; B]);
                                 EvStream A; EvRowsRemaining 1] ++ [B])
                      (d_status (query ∅ (Some 2) None)))) :: post'
    /\ (remaining (streamAll counter count_row
                     (streamed [EvClient None;
                                EvDescribe (sized_request 20 None)
                                           (page (Some "t1") [A; B]);
                                EvStream A; EvRowsRemaining 1] ++ [B])
                     (d_status (query ∅ (Some 2) None))) = 0 ->
        post' = [] /\
        result (list_scripted two_pages 5 (query ∅ (Some 2) None))
        = Some (None, None)).
Proof.
  apply (cancellation_polled_after_each_emission scripted count_row remaining
           (fun _ => inr two_pages) 5 (query ∅ (Some 2) None)).
  reflexivity.
Defined.

Lemma row_ceiling_bounds_emission_witness :
  Z.of_nat (length (streamed (trace (list_scripted two_pages 5
                                       (query ∅ (Some 2) None))))) <= 2.
Proof.
  apply (row_ceiling_bounds_emission scripted count_row remaining
           (fun _ => inr two_pages) 5 (query ∅ (Some 2) None) 2).
  - reflexivity.
  - apply counter_honours.
  - lia.
Defined.

(** C5 as stated fails at the row ceiling zero: the list function streams
    the first record of the page before it first asks how many rows
    remain, so one record is emitted although the consumer enforces the
    ceiling. *)
Lemma row_ceiling_zero_emits_one :
  Limit (d_QueryContext (query ∅ (Some 0) None)) = Some 0 /\
  honoursLimit counter count_row remaining 0
    (d_status (query ∅ (Some 0) None)) /\
  trace (list_scripted [page None [A; B]] 5 (query ∅ (Some 0) None))
  = [EvClient None;
     EvDescribe {| MaxResults := 20; NextToken := None;
                   in_ReservedInstanceId := None |} (page None [A; B]);
     EvStream A; EvRowsRemaining 0] /\
  ~ Z.of_nat (length (streamed (trace (list_scripted [page None [A; B]] 5
                                        (query ∅ (Some 0) None))))) <= 0.
Proof.
  split; [reflexivity|]. split; [apply counter_honours|].
  split; [reflexivity|]. vm_compute. intros H. by apply H.
Qed.

Lemma emission_order_witness :
  streamed (trace (list_scripted two_pages 5 (query ∅ None None)))
  = [A; B; C] /\
  fetched (trace (list_scripted two_pages 5 (query ∅ None None)))
  = [A; B; C] /\
  streamed [EvClient None;
            EvDescribe (first_request None) (page (Some "t1") [A; B]);
            EvStream A; EvRowsRemaining unbounded;
            EvStream B; EvRowsRemaining unbounded]
  = [A; B].
Proof.
  destruct (emission_order scripted count_row remaining
              (fun _ => inr two_pages) 5 (query ∅ None None))
    as (Hprefix & Hall & Hpage).
  unfold list_scripted. split; [|split].
  - rewrite Hall; [reflexivity|].
    vm_compute. repeat constructor; discriminate.
  - reflexivity.
  - rewrite (Hpage _ (first_request (Some "t1")) (page None [C])
               [EvStream C; EvRowsRemaining unbounded]); reflexivity.
Defined.

Lemma duplicate_token_terminates_witness :
  requests [EvStream A; EvRowsRemaining unbounded] = [] /\
  result (list_cyclic 2 (query ∅ None None)) <> None /\
  forall fuel', (2 <= fuel')%nat ->
    list_cyclic fuel' (query ∅ None None)
    = list_cyclic 2 (query ∅ None None).
Proof.
  apply (duplicate_token_terminates cyclic count_row remaining
           (fun _ => inr tt) 2 (query ∅ None None)
           [EvClient None]
           (first_request None)
           {| out_NextToken := Some "tok"; ReservedInstances := [A] |}
           [EvStream A; EvRowsRemaining unbounded]
           (first_request (Some "tok"))
           {| out_NextToken := Some "tok"; ReservedInstances := [A] |}
           [EvStream A; EvRowsRemaining unbounded]).
  - reflexivity.
  - reflexivity.
  - reflexivity.
Defined.

Lemma lookup_empty_key_witness :
  get_scripted (inr [page None [A]]) (query (by_id "") None None)
  = {| trace := []; result := Some (None, None);
       status := fresh None None |}.
Proof.
  apply (lookup_empty_key scripted (fun _ => inr [page None [A]])
           (query (by_id "") None None)).
  reflexivity.
Defined.

Lemma lookup_nonempty_key_witness :
  let request := {| MaxResults := 0; NextToken := None;
                    in_ReservedInstanceId := Some "ri-123" |} in
  let resp := fst (scripted [page None [A; B]] request) in
  trace (get_scripted (inr [page None [A; B]])
           (query (by_id "ri-123") None None))
  = [EvClient None; EvDescribe request resp] /\
  (forall out, resp = inr out -> ReservedInstances out = [] ->
     result (get_scripted (inr [page None [A; B]])
               (query (by_id "ri-123") None None)) = Some (None, None)) /\
  (forall out first others, resp = inr out ->
     ReservedInstances out = first :: others ->
     result (get_scripted (inr [page None [A; B]])
               (query (by_id "ri-123") None None))
     = Some (Some first, None)).
Proof.
  apply (lookup_nonempty_key scripted (fun _ => inr [page None [A; B]])
           (query (by_id "ri-123") None None) "ri-123" [page None [A; B]]).
  - reflexivity.
  - discriminate.
  - reflexivity.
Defined.

(** C6 as stated fails when the client cannot be constructed: the key is
    not empty, and the lookup returns the setup error without any remote
    call. *)
Lemma lookup_setup_failure_makes_no_call :
  GetStringValue (EqualsQuals (query (by_id "ri-123") None None)
                    !! key_column) = "ri-123" /\
  "ri-123" <> "" /\
  get_scripted (inl (Err "no credentials"))
    (query (by_id "ri-123") None None)
  = {| trace := [EvClient (Some (Err "no credentials"))];
       result := Some (None, Some (Err "no credentials"));
       status := fresh None None |} /\
  length (requests (trace (get_scripted (inl (Err "no credentials"))
                             (query (by_id "ri-123") None None)))) <> 1%nat.
Proof.
  split; [reflexivity|]. split; [discriminate|].
  split; [reflexivity|]. vm_compute. discriminate.
Qed.

Lemma remote_failure_propagates_witness :
  ([] = @nil event /\
   result (list_scripted page_then_failure 5 (query ∅ None None))
   = Some (None, Some (Err "throttled")) /\
   status (list_scripted page_then_failure 5 (query ∅ None None))
   = streamAll counter count_row
       (streamed [EvClient None;
                  EvDescribe (first_request None) (page (Some "t1") [A; B]);
                  EvStream A; EvRowsRemaining unbounded;
                  EvStream B; EvRowsRemaining unbounded])
       (d_status (query ∅ None None))) /\
  get_scripted (inr [inl (Err "throttled")])
    (query (by_id "ri-123") None None)
  = {| trace := [EvClient None;
                 EvDescribe (getInput "ri-123") (inl (Err "throttled"))];
       result := Some (None, Some (Err "throttled"));
       status := d_status (query (by_id "ri-123") None None) |}.
Proof.
  destruct (remote_failure_propagates scripted count_row remaining
              (fun _ => inr page_then_failure)) as [Hlist _].
  destruct (remote_failure_propagates scripted count_row remaining
              (fun _ : QueryData counter =>
                 inr [inl (Err "throttled") : response]))
    as [_ Hget].
  split.
  - apply (Hlist 5%nat (query ∅ None None) _ (first_request (Some "t1"))).
    reflexivity.
  - apply (Hget (query (by_id "ri-123") None None) "ri-123"
             [inl (Err "throttled")] (Err "throttled")).
    + reflexivity.
    + discriminate.
    + reflexivity.
    + reflexivity.
Defined.

(** The bound on the page size is not vacuous: a run with a ceiling beyond
    [int32] still sends requests, each asking for 20 records. *)
Example requests_beyond_int32 :
  map MaxResults
      (requests (trace (list_endless 3 (query ∅ (Some 4294967296) None))))
  = [20; 20; 20].
Proof. by vm_compute. Qed.

(** The option set at line 154 is what ends a run against the cyclic
    service: a paginator left with its default options goes on until the
    fuel is spent. *)
Example run_cyclic_without_stop :
  result (listPages unit cyclic counter count_row remaining 40
            (NewDescribeReservedInstancesPaginator (first_request None)
               (fun o => o))
            tt (fresh None None)) = None /\
  result (list_cyclic 40 (query ∅ None None)) = Some (None, None) /\
  length (requests (trace (list_cyclic 40 (query ∅ None None)))) = 2%nat.
Proof. by vm_compute. Qed.

(** ** Further properties at concrete runs *)

(** X1: the page size is the row ceiling, narrowed to [int32], clamped
    between the floor 20 and the protocol maximum 100; for a ceiling that
    fits [int32] it is the ceiling itself clamped between 20 and 100. *)
Theorem page_size_clamp {Q} (d : QueryData Q) (l : Z) :
  Limit (d_QueryContext d) = Some l ->
  MaxResults (listInput d) = Z.max 20 (Z.min 100 (int32 l)) /\
  (in_int32 l -> MaxResults (listInput d) = Z.max 20 (Z.min 100 l)).
Proof.
  intros H.
  assert (MaxResults (listInput d) = Z.max 20 (Z.min 100 (int32 l))) as Hm.
  { rewrite listInput_MaxResults, H.
    destruct (Z.ltb_spec (int32 l) 100);
      [|by rewrite Z.min_l, Z.max_r by lia].
    rewrite Z.min_r by lia.
    destruct (Z.ltb_spec (int32 l) 20);
      [by rewrite Z.max_l by lia | by rewrite Z.max_r by lia]. }
  split; [exact Hm|]. intros Hr.
  rewrite Hm, int32_id by exact Hr. reflexivity.
Qed.

Lemma page_size_clamp_witness :
  MaxResults (listInput (query ∅ (Some 50) None))
  = Z.max 20 (Z.min 100 (int32 50)) /\
  MaxResults (listInput (query ∅ (Some 50) None)) = Z.max 20 (Z.min 100 50).
Proof.
  destruct (page_size_clamp (query ∅ (Some 50) None) 50) as [Hnarrow Hfit].
  - reflexivity.
  - split; [exact Hnarrow|]. apply Hfit. unfold in_int32. lia.
Defined.

Lemma counter_cancelled (items : list ReservedInstance) (q : counter) :
  cancelledAt (streamAll counter count_row items q) = cancelledAt q.
Proof.
  revert q. induction items as [|item items IH]; intros q; simpl; [done|].
  by rewrite IH.
Qed.

(** The counting consumer without cancellation stops exactly at its row
    ceiling. *)
Lemma counter_exact (K : Z) :
  stopsExactlyAt counter count_row remaining K (fresh (Some K) None).
Proof.
  intros items. unfold remaining.
  rewrite counter_rows, counter_required, counter_cancelled. simpl.
  destruct (Z.le_gt_cases K (Z.of_nat (length items))) as [Hle|Hgt].
  - rewrite Z.max_l by lia. split; [intros _; exact Hle | reflexivity].
  - rewrite Z.max_r by lia. split; lia.
Qed.

Lemma empty_qualifier_list_vs_get_witness :
  get_scripted (inr [page None [A]]) (query (by_id "") None None)
  = {| trace := []; result := Some (None, None);
       status := d_status (query (by_id "") None None) |} /\
  exists request others,
    requests (trace (list_scripted [page None [A]] 1
                       (query (by_id "") None None)))
    = request :: others /\
    Forall (fun r => in_ReservedInstanceId r = Some "") (request :: others).
Proof.
  apply (empty_qualifier_list_vs_get scripted count_row remaining
           (fun _ => inr [page None [A]]) 0 (query (by_id "") None None)
           (QualValue_StringValue "") [page None [A]]).
  - reflexivity.
  - reflexivity.
  - reflexivity.
Defined.

Lemma continuation_chain_witness :
  (first_request None = listInput (query ∅ None None) /\
   NextToken (first_request None) = None) /\
  (NextToken (first_request (Some "t1")) = Some "t1" /\
   nonempty_token (Some "t1") = true).
Proof.
  destruct (continuation_chain scripted count_row remaining
              (fun _ => inr two_pages) 5 (query ∅ None None))
    as [Hfirst Hnext].
  split.
  - apply (Hfirst [EvClient None] (first_request None)
             (page (Some "t1") [A; B])
             [EvStream A; EvRowsRemaining unbounded;
              EvStream B; EvRowsRemaining unbounded;
              EvDescribe (first_request (Some "t1")) (page None [C]);
              EvStream C; EvRowsRemaining unbounded]); reflexivity.
  - apply (Hnext [EvClient None] (first_request None)
             {| out_NextToken := Some "t1"; ReservedInstances := [A; B] |}
             [EvStream A; EvRowsRemaining unbounded;
              EvStream B; EvRowsRemaining unbounded]
             (first_request (Some "t1")) (page None [C])
             [EvStream C; EvRowsRemaining unbounded]); reflexivity.
Defined.

Lemma terminal_token_ends_run_witness :
  requests [EvStream C; EvRowsRemaining unbounded] = [] /\
  result (list_scripted two_pages 2 (query ∅ None None)) <> None /\
  forall fuel', (2 <= fuel')%nat ->
    list_scripted two_pages fuel' (query ∅ None None)
    = list_scripted two_pages 2 (query ∅ None None).
Proof.
  apply (terminal_token_ends_run scripted count_row remaining
           (fun _ => inr two_pages) 2 (query ∅ None None)
           [EvClient None;
            EvDescribe (first_request None) (page (Some "t1") [A; B]);
            EvStream A; EvRowsRemaining unbounded;
            EvStream B; EvRowsRemaining unbounded]
           (first_request (Some "t1"))
           {| out_NextToken := None; ReservedInstances := [C] |}
           [EvStream C; EvRowsRemaining unbounded]).
  - reflexivity.
  - reflexivity.
Defined.

Lemma poll_only_after_emission_witness :
  (exists pre' item,
     [EvClient None;
      EvDescribe (sized_request 20 None) (page (Some "t1") [A; B]);
      EvStream A] = pre' ++ [EvStream item]) /\
  1 = remaining
        (streamAll counter count_row
           (streamed [EvClient None;
                      EvDescribe (sized_request 20 None)
                                 (page (Some "t1") [A; B]);
                      EvStream A])
           (d_status (query ∅ (Some 2) None))).
Proof.
  apply (poll_only_after_emission scripted count_row remaining
           (fun _ => inr two_pages) 5 (query ∅ (Some 2) None)
           _ 1 [EvStream B; EvRowsRemaining 0]).
  reflexivity.
Defined.

Lemma list_result_classification_witness :
  None = @None ReservedInstance /\
  exists pre last,
    trace (list_scripted page_then_failure 5 (query ∅ None None))
    = pre ++ [last] /\
    event_failed last = Some (Err "throttled").
Proof.
  apply (list_result_classification scripted count_row remaining
           (fun _ => inr page_then_failure) 5 (query ∅ None None)
           None (Some (Err "throttled"))).
  reflexivity.
Defined.

Lemma lookup_outcome_provenance_witness :
  @None error = None /\
  exists out,
    trace (get_scripted (inr [page None [A; B]])
             (query (by_id "ri-123") None None))
    = [EvClient None;
       EvDescribe (getInput
                     (GetStringValue
                        (EqualsQuals (query (by_id "ri-123") None None)
                           !! key_column)))
                  (inr out)] /\
    head (ReservedInstances out) = Some A.
Proof.
  destruct (lookup_outcome_provenance scripted
              (fun _ => inr [page None [A; B]])
              (query (by_id "ri-123") None None)) as [Hrecord _].
  apply (Hrecord A None). reflexivity.
Defined.

Lemma emission_count_exact_witness :
  Z.of_nat (length (streamed (trace (list_scripted [page None [A; B; C]] 5
                                       (query ∅ (Some 2) None)))))
  = Z.min 2 (Z.of_nat (length (fetched
                         (trace (list_scripted [page None [A; B; C]] 5
                                   (query ∅ (Some 2) None)))))).
Proof.
  apply (emission_count_exact scripted count_row remaining
           (fun _ => inr [page None [A; B; C]]) 5 (query ∅ (Some 2) None) 2).
  - apply counter_exact.
  - lia.
Defined.

Lemma empty_pages_never_poll_witness :
  Forall (fun ev => is_consumer_event ev = false)
         (trace (list_hollow 3 (query ∅ None (Some 0%nat)))) /\
  status (list_hollow 3 (query ∅ None (Some 0%nat)))
  = d_status (query ∅ None (Some 0%nat)).
Proof.
  apply (empty_pages_never_poll hollow count_row remaining
           (fun _ => inr O) 3 (query ∅ None (Some 0%nat))).
  reflexivity.
Defined.

(** A consumer whose context is cancelled from the start does not stop an
    enumeration of empty pages: every page the fuel allows is requested. *)
Example run_hollow_cancelled :
  remaining (d_status (query ∅ None (Some 0%nat))) = 0 /\
  length (requests (trace (list_hollow 30 (query ∅ None (Some 0%nat)))))
  = 30%nat /\
  result (list_hollow 30 (query ∅ None (Some 0%nat))) = None.
Proof. by vm_compute. Qed.

(** With three records fetched and a ceiling of two, [A] and [B] are
    emitted and [C] is not. *)
Example run_ceiling_two_of_three :
  streamed (trace (list_scripted [page None [A; B; C]] 5
                     (query ∅ (Some 2) None))) = [A; B].
Proof. reflexivity. Qed.
